(** * pkg/model/workflow.go: the workflow model and matrix expansion

    A shallow embedding of the Go package [model] (file
    [pkg/model/workflow.go]) and the properties of its operations:
    the normalisation of the polymorphic [on] / [needs] fields, the
    expansion of a job's strategy matrix, the classification of steps,
    the synthesis of a step's environment and the lookup of jobs. *)

From Stdlib Require Import ZArith Ascii String.
From stdpp Require Import gmap strings list fin_maps.

Open Scope string_scope.
Open Scope list_scope.

Set Warnings "-register-all,-clear-no-such-hyp".

(** ** Outcomes of Go code

    A Go call either returns, panics at run time (a failed type
    assertion, a comparison of uncomparable interface values, a nil
    dereference), or ends the process through [log.Fatal]. *)

Inductive result (A : Type) : Type :=
  | Ok (a : A)
  | Panic
  | Fatal.
Arguments Ok {A} a.
Arguments Panic {A}.
Arguments Fatal {A}.

#[global] Instance result_ret : MRet result := λ A a, Ok a.
#[global] Instance result_bind : MBind result := λ A B f r,
  match r with
  | Ok a => f a
  | Panic => Panic
  | Fatal => Fatal
  end.

(** ** Values of type [interface{}]

    The dynamic values a decoded document puts behind [interface{}]:
    nil, bool, int, string, [[]interface{}] and
    [map[string]interface{}].  (float64 scalars are left out of the
    model.) *)

Inductive value : Type :=
  | VNil
  | VBool (b : bool)
  | VInt (n : Z)
  | VString (s : string)
  | VSeq (l : list value)
  | VMap (m : gmap string value).

(** A [map[string]interface{}]: one matrix variant, or one include /
    exclude entry. *)
Abbreviation variant := (gmap string value).

(** The dynamic types on which Go's [==] is defined. *)
Definition comparable (v : value) : bool :=
  match v with
  | VSeq _ | VMap _ => false
  | _ => true
  end.

(** [a != b] on two interface values: values of different dynamic
    types are unequal, values of the same comparable type are compared,
    and two values of the same uncomparable type (slice or map) make
    the comparison panic. *)
Definition iface_ne (a b : value) : result bool :=
  match a, b with
  | VNil, VNil => Ok false
  | VBool x, VBool y => Ok (negb (Bool.eqb x y))
  | VInt x, VInt y => Ok (negb (x =? y)%Z)
  | VString x, VString y => Ok (negb (String.eqb x y))
  | VSeq _, VSeq _ => Panic
  | VMap _, VMap _ => Panic
  | _, _ => Ok true
  end.

(** The type assertion [v.(map[string]interface{})]. *)
Definition assertMap (v : value) : result variant :=
  match v with
  | VMap m => Ok m
  | _ => Panic
  end.

(** ** The document model *)

(** [yaml.Kind]; [ZeroKind] is the kind of the zero [yaml.Node] that an
    absent field leaves behind. *)
Inductive Kind : Type :=
  | ZeroKind
  | DocumentNode
  | SequenceNode
  | MappingNode
  | ScalarNode
  | AliasNode.

(** [yaml.Node], with the fields decoding looks at.  The content of a
    mapping node alternates keys and values. *)
Inductive Node : Type :=
  mkNode { Node_Kind : Kind;
           Node_Tag : string;
           Node_Value : string;
           Node_Content : list Node }.

Module ContainerSpec.
Record t : Type := mk
  { Image : string;
    Env : gmap string string;
    Ports : list Z;
    Volumes : list string;
    Options : string;
    Entrypoint : string;
    Args : string;
    Name : string;
    Reuse : bool }.
End ContainerSpec.

Module Step.
Record t : Type := mk
  { ID : string;
    If : string;
    Name : string;
    Uses : string;
    Run : string;
    WorkingDirectory : string;
    Shell : string;
    Env : gmap string string;
    With : gmap string string;
    ContinueOnError : bool;
    TimeoutMinutes : Z }.
End Step.

Module Strategy.
Record t : Type := mk
  { FailFast : bool;
    MaxParallel : Z;
    Matrix : gmap string (list value) }.

(** What deleting keys from the map behind [Matrix] leaves. *)
Definition setMatrix (m : gmap string (list value)) (s : t) : t :=
  mk (FailFast s) (MaxParallel s) m.
End Strategy.

Module Job.
Record t : Type := mk
  { Name : string;
    RawNeeds : Node;
    RunsOn : string;
    Env : gmap string string;
    If : string;
    Steps : list Step.t;
    TimeoutMinutes : Z;
    Container : option ContainerSpec.t;
    Services : gmap string (option ContainerSpec.t);
    Strategy : option Strategy.t }.

(** [j.Name = n] *)
Definition setName (n : string) (j : t) : t :=
  mk n (RawNeeds j) (RunsOn j) (Env j) (If j) (Steps j)
     (TimeoutMinutes j) (Container j) (Services j) (Strategy j).

Definition setStrategy (s : option Strategy.t) (j : t) : t :=
  mk (Name j) (RawNeeds j) (RunsOn j) (Env j) (If j) (Steps j)
     (TimeoutMinutes j) (Container j) (Services j) s.
End Job.

(** Jobs live in a store; a [*Job] is [None] (nil) or the address of
    a job in the store. *)
Abbreviation loc := positive.
Abbreviation store := (gmap positive Job.t).

Module Workflow.
Record t : Type := mk
  { Name : string;
    RawOn : Node;
    Env : gmap string string;
    Jobs : gmap string (option loc) }.
End Workflow.

(** ** Normalisation of [on] and [needs] *)

(** The method [Decode] of [yaml.Node] (package [gopkg.in/yaml.v3])
    at the three target types this package decodes to: [string],
    [[]string] and [map[string]interface{}].  [None] stands for a
    non-nil error. *)
Class Decoder : Type :=
  { decodeString : Node → option string;
    decodeStrings : Node → option (list string);
    decodeMap : Node → option (gmap string value) }.

(** [if err != nil { log.Fatal(err) }] *)
Definition orFatal {A} (r : option A) : result A :=
  match r with
  | Some a => Ok a
  | None => Fatal
  end.

(** [for k := range val { keys = append(keys, k) }] *)
Definition rangeKeys (val : gmap string value) : list string :=
  (map_to_list val).*1.

Definition On `{Decoder} (w : Workflow.t) : result (list string) :=
  match Node_Kind (Workflow.RawOn w) with
  | ScalarNode =>
      val ← orFatal (decodeString (Workflow.RawOn w)); Ok [val]
  | SequenceNode =>
      val ← orFatal (decodeStrings (Workflow.RawOn w)); Ok val
  | MappingNode =>
      val ← orFatal (decodeMap (Workflow.RawOn w)); Ok (rangeKeys val)
  | _ => Ok []
  end.

Definition Needs `{Decoder} (j : Job.t) : result (list string) :=
  match Node_Kind (Job.RawNeeds j) with
  | ScalarNode =>
      val ← orFatal (decodeString (Job.RawNeeds j)); Ok [val]
  | SequenceNode =>
      val ← orFatal (decodeStrings (Job.RawNeeds j)); Ok val
  | _ => Ok []
  end.

(** A decoder for documents of plain scalars, to run the examples
    with: a scalar decodes to its text, a sequence of scalars to their
    texts, a mapping with distinct scalar keys to the map from these
    keys to the values of their entries. *)
Definition scalarText (n : Node) : option string :=
  match Node_Kind n with
  | ScalarNode => Some (Node_Value n)
  | _ => None
  end.

Fixpoint nodeValue (n : Node) : option value :=
  match Node_Kind n with
  | ScalarNode =>
      Some (if String.eqb (Node_Tag n) "!!null" then VNil
            else VString (Node_Value n))
  | SequenceNode => VSeq <$> mapM nodeValue (Node_Content n)
  | MappingNode =>
      VMap <$>
        (fix entries (c : list Node) : option (gmap string value) :=
           match c with
           | [] => Some ∅
           | k :: v :: rest =>
               key ← scalarText k;
               val ← nodeValue v;
               m ← entries rest;
               match m !! key with
               | Some _ => None
               | None => Some (<[key := val]> m)
               end
           | _ => None
           end) (Node_Content n)
  | _ => None
  end.

Definition plainDecoder : Decoder :=
  {| decodeString := scalarText;
     decodeStrings n :=
       match Node_Kind n with
       | SequenceNode => mapM scalarText (Node_Content n)
       | _ => None
       end;
     decodeMap n :=
       match Node_Kind n with
       | MappingNode =>
           match nodeValue n with
           | Some (VMap m) => Some m
           | _ => None
           end
       | _ => None
       end |}.

(** ** Matrix expansion *)

(** [commonKeysMatch]: the [range] over [a] visits its entries in
    some order; the loop leaves with [false] at the first entry whose
    key is in [b] with a different value. *)
Fixpoint commonKeysMatch_range (entries : list (string * value))
    (b : variant) : result bool :=
  match entries with
  | [] => Ok true
  | (aKey, aVal) :: rest =>
      match b !! aKey with
      | Some bVal =>
          ne ← iface_ne aVal bVal;
          if (ne : bool) then Ok false else commonKeysMatch_range rest b
      | None => commonKeysMatch_range rest b
      end
  end.

Definition commonKeysMatch (a b : variant) : result bool :=
  commonKeysMatch_range (map_to_list a) b.

(** Modelled from the spec: the product behind
    [common.CartesianProduct] (package [pkg/common] of this
    repository, whose source is not at hand).  The spec, section 4.3
    step 3: "one Variant per combination of (axis, one of its
    candidate values), total count = product of axis list lengths". *)
Fixpoint cartesian (l : list (string * list value)) : list variant :=
  match l with
  | [] => [(∅ : variant)]
  | (name, candidates) :: rest =>
      v ← candidates; m ← cartesian rest; [<[name := v]> m]
  end.

(** Modelled from the spec: [common.CartesianProduct] on the map of
    axes; the axes are taken in the order in which the map lists
    them, the candidate values in the order of their lists. *)
Definition CartesianProduct (m : gmap string (list value)) : list variant :=
  cartesian (map_to_list m).

(** [for _, exclude := range excludes]: does some exclude entry
    match?  The loop stops at the first one that does. *)
Fixpoint excluded (matrix : variant) (excludes : list variant) : result bool :=
  match excludes with
  | [] => Ok false
  | exclude :: rest =>
      hit ← commonKeysMatch matrix exclude;
      if (hit : bool) then Ok true else excluded matrix rest
  end.

(** [for k, v := range include { matrix[k] = v }] *)
Definition assignAll (include matrix : variant) : variant :=
  map_fold (λ k v acc, <[k := v]> acc) matrix include.

(** [for _, include := range includes]: every entry is matched
    against [matrix] as the earlier entries have left it. *)
Fixpoint applyIncludes (matrix : variant) (includes : list variant)
    : result variant :=
  match includes with
  | [] => Ok matrix
  | include :: rest =>
      hit ← commonKeysMatch matrix include;
      applyIncludes (if (hit : bool) then assignAll include matrix else matrix) rest
  end.

(** The loop labelled [MATRIX]. *)
Fixpoint matrixLoop (matrixProduct : list variant)
    (excludes includes : list variant) (matrixes : list variant)
    : result (list variant) :=
  match matrixProduct with
  | [] => Ok matrixes
  | matrix :: rest =>
      skip ← excluded matrix excludes;
      if (skip : bool) then matrixLoop rest excludes includes matrixes
      else
        matrix' ← applyIncludes matrix includes;
        matrixLoop rest excludes includes (matrixes ++ [matrix'])
  end.

(** [Matrix["include"]]: a missing key reads as the nil slice. *)
Definition axis (name : string) (m : gmap string (list value)) : list value :=
  default [] (m !! name).

(** [GetMatrixes] works on the job behind its receiver: it returns
    the variants together with the job as the call leaves it.  The
    two [delete]s act on the map that [j.Strategy.Matrix] refers to,
    so they show in the job after the call. *)
Definition GetMatrixes (j : Job.t) : result (list variant * Job.t) :=
  match Job.Strategy j with
  | Some s =>
      let m0 := Strategy.Matrix s in
      includes ← mapM assertMap (axis "include" m0);
      let m1 := delete "include" m0 in
      excludes ← mapM assertMap (axis "exclude" m1);
      let m2 := delete "exclude" m1 in
      let matrixProduct := CartesianProduct m2 in
      matrixes ← matrixLoop matrixProduct excludes includes [];
      Ok (matrixes, Job.setStrategy (Some (Strategy.setMatrix m2 s)) j)
  | None => Ok ([(∅ : variant)], j)
  end.

(** The call [j.GetMatrixes()] for a pointer [j] to a job in the
    store: whoever holds the pointer sees the job as the call leaves
    it. *)
Definition GetMatrixesAt (l : loc) (h : store) : result (list variant * store) :=
  match h !! l with
  | Some j => r ← GetMatrixes j; Ok (r.1, <[l := r.2]> h)
  | None => Panic
  end.

(** ** Steps *)

(** [strings.ToUpper] and [ReplaceAllString] for the expression
    ["[^A-Z0-9-]"], on ASCII text, where Go's runes are single
    bytes.  (Go upper-cases other runes by the Unicode tables and
    replaces a rune of several bytes by one underscore; names outside
    ASCII are not modelled.) *)
Definition between (lo hi c : ascii) : bool :=
  (N_of_ascii lo <=? N_of_ascii c)%N && (N_of_ascii c <=? N_of_ascii hi)%N.

Definition upperChar (c : ascii) : ascii :=
  if between "a" "z" c then ascii_of_N (N_of_ascii c - 32) else c.

Fixpoint mapChars (f : ascii → ascii) (s : string) : string :=
  match s with
  | EmptyString => EmptyString
  | String c rest => String (f c) (mapChars f rest)
  end.

Definition ToUpper (s : string) : string := mapChars upperChar s.

(** Does [c] match ["[^A-Z0-9-]"]? *)
Definition outsideClass (c : ascii) : bool :=
  negb (between "A" "Z" c || between "0" "9" c || Ascii.eqb c "-").

Definition ReplaceAllString_underscore (s : string) : string :=
  mapChars (λ c, if outsideClass c then "_"%char else c) s.

(** The two assignments to [envKey] in the loop over [s.With]. *)
Definition envKey (k : string) : string :=
  let envKey := ReplaceAllString_underscore (ToUpper k) in
  String.append "INPUT_" (ToUpper envKey).

Definition GetEnv (s : Step.t) : gmap string string :=
  let rtnEnv := map_fold (λ k v acc, <[k := v]> acc) ∅ (Step.Env s) in
  map_fold (λ k v acc, <[envKey k := v]> acc) rtnEnv (Step.With s).

Inductive StepType : Type :=
  | StepTypeRun
  | StepTypeUsesDockerURL
  | StepTypeUsesActionLocal
  | StepTypeUsesActionRemote.

(** The values [iota] gives the constants. *)
Definition StepType_int (t : StepType) : Z :=
  match t with
  | StepTypeRun => 0
  | StepTypeUsesDockerURL => 1
  | StepTypeUsesActionLocal => 2
  | StepTypeUsesActionRemote => 3
  end.

(** [strings.HasPrefix] *)
Definition HasPrefix (s prefix : string) : bool := String.prefix prefix s.

(** The method [Type] of [*Step] ([Type] alone is a reserved word
    here). *)
Definition Step_Type (s : Step.t) : StepType :=
  if negb (String.eqb (Step.Run s) "") then StepTypeRun
  else if HasPrefix (Step.Uses s) "docker://" then StepTypeUsesDockerURL
  else if HasPrefix (Step.Uses s) "./" then StepTypeUsesActionLocal
  else StepTypeUsesActionRemote.

(** ** Job lookup *)

(** The body of the loop of [GetJob] at the entry whose key is
    [jobID]: [j.Name] dereferences [j], which panics on nil.  (An
    address outside the store has no counterpart in Go.) *)
Definition GetJob_hit (id : string) (j : option loc) (h : store)
    : result (option loc * store) :=
  match j with
  | None => Panic
  | Some l =>
      match h !! l with
      | None => Panic
      | Some job =>
          if String.eqb (Job.Name job) ""
          then Ok (j, <[l := Job.setName id job]> h)
          else Ok (j, h)
      end
  end.

Fixpoint GetJob_range (entries : list (string * option loc))
    (jobID : string) (h : store) : result (option loc * store) :=
  match entries with
  | [] => Ok (None, h)
  | (id, j) :: rest =>
      if String.eqb jobID id then GetJob_hit id j h
      else GetJob_range rest jobID h
  end.

(** [GetJob] returns the pointer it found (nil for none) and the
    store as the call leaves it. *)
Definition GetJob (w : Workflow.t) (jobID : string) (h : store)
    : result (option loc * store) :=
  GetJob_range (map_to_list (Workflow.Jobs w)) jobID h.

(** ** What the expansion computes, in closed form *)

(** Partial-key match, as a proposition: the two maps agree on every
    key they share. *)
Definition agree (a b : variant) : Prop :=
  ∀ k x y, a !! k = Some x → b !! k = Some y → x = y.

(** Equality of two values one of which is a scalar. *)
Definition same (a b : value) : bool :=
  match a, b with
  | VNil, VNil => true
  | VBool x, VBool y => Bool.eqb x y
  | VInt x, VInt y => (x =? y)%Z
  | VString x, VString y => String.eqb x y
  | _, _ => false
  end.

Definition agreeb (a b : variant) : bool :=
  forallb (λ kv, match b !! kv.1 with
                 | Some y => same kv.2 y
                 | None => true
                 end) (map_to_list a).

(** All values of the map are of a comparable dynamic type. *)
Definition scalars (b : variant) : bool :=
  forallb (λ kv, comparable kv.2) (map_to_list b).

(** The candidates no exclude entry matches. *)
Definition survivors (excludes : list variant) (cands : list variant)
    : list variant :=
  List.filter (λ c, negb (existsb (agreeb c) excludes)) cands.

(** The include entries applied in declaration order, each matched
    against the candidate as extended so far. *)
Definition withIncludes (includes : list variant) (c : variant) : variant :=
  foldl (λ acc inc, if agreeb acc inc then inc ∪ acc else acc) c includes.

(** The include rule in the words of the specification: every entry
    that matches the candidate is merged onto it, in declaration
    order, a later entry overwriting what an earlier one wrote. *)
Definition withIncludes_claimed (includes : list variant) (c : variant) : variant :=
  foldl (λ acc inc, if agreeb c inc then inc ∪ acc else acc) c includes.

(** The axes of a matrix: all keys but the two reserved ones. *)
Definition axes (m : gmap string (list value)) : gmap string (list value) :=
  delete "exclude" (delete "include" m).

Definition product (l : list nat) : nat := foldr Nat.mul 1 l.

Definition axisSizes (m : gmap string (list value)) : list nat :=
  (λ kv, length kv.2) <$> map_to_list m.

(** [v] picks one candidate value for each axis of [m], and nothing
    else. *)
Definition combination (m : gmap string (list value)) (v : variant) : Prop :=
  (∀ k, is_Some (v !! k) ↔ is_Some (m !! k)) ∧
  (∀ k vs, m !! k = Some vs → ∃ x, v !! k = Some x ∧ x ∈ vs).

(** ** Example documents *)

Definition emptyNode : Node := mkNode ZeroKind "" "" [].

(** A job that only declares a strategy matrix. *)
Definition matrixJob (m : gmap string (list value)) : Job.t :=
  Job.mk "" emptyNode "" ∅ "" [] 0 None ∅ (Some (Strategy.mk false 0 m)).

(** A job without [strategy]. *)
Definition plainJob : Job.t := Job.mk "build" emptyNode "" ∅ "" [] 0 None ∅ None.

(** matrix: {a: [1, 2], exclude: [{}]} *)
Definition excludeAllMatrix : gmap string (list value) :=
  {[ "a" := [VInt 1; VInt 2]; "exclude" := [VMap ∅] ]}.

(** matrix: {a: [1, 2], exclude: [{a: 1}]} *)
Definition excludeOneMatrix : gmap string (list value) :=
  {[ "a" := [VInt 1; VInt 2]; "exclude" := [VMap {[ "a" := VInt 1 ]}] ]}.

(** matrix: {a: [1, 2], include: [{a: 1, b: 9}]} *)
Definition includeMatrix : gmap string (list value) :=
  {[ "a" := [VInt 1; VInt 2];
     "include" := [VMap {[ "a" := VInt 1; "b" := VInt 9 ]}] ]}.

(** matrix: {a: [1], include: [{a: 1, b: 9}, {a: 1, b: 8}]} *)
Definition conflictIncludes : list variant :=
  [ {[ "a" := VInt 1; "b" := VInt 9 ]}; {[ "a" := VInt 1; "b" := VInt 8 ]} ].
Definition conflictMatrix : gmap string (list value) :=
  {[ "a" := [VInt 1]; "include" := VMap <$> conflictIncludes ]}.

(** matrix: {os: [linux, mac], node: [14, 16, 18]} *)
Definition plainMatrix : gmap string (list value) :=
  {[ "os" := [VString "linux"; VString "mac"];
     "node" := [VInt 14; VInt 16; VInt 18] ]}.

Definition scalarNode (v : string) : Node := mkNode ScalarNode "!!str" v [].
Definition sequenceNode (items : list Node) : Node :=
  mkNode SequenceNode "!!seq" "" items.
Definition mappingNode (content : list Node) : Node :=
  mkNode MappingNode "!!map" "" content.

(** {push: {}} *)
Definition pushMapping : Node :=
  mappingNode [scalarNode "push"; mappingNode []].

Definition workflowOn (n : Node) : Workflow.t := Workflow.mk "ci" n ∅ ∅.
Definition jobNeeds (n : Node) : Job.t :=
  Job.mk "" n "" ∅ "" [] 0 None ∅ None.

(** A step with [with: {node-version: "16"}]. *)
Definition setupStep : Step.t :=
  Step.mk "" "" "" "actions/setup-node@v1" "" "" "" ∅
    {[ "node-version" := "16" ]} false 0.

(** A workflow with one job, ["build"], that has no name. *)
Definition buildJob : Job.t := Job.mk "" emptyNode "ubuntu" ∅ "" [] 0 None ∅ None.
Definition buildWorkflow : Workflow.t :=
  Workflow.mk "ci" emptyNode ∅ {[ "build" := Some 1%positive ]}.
Definition buildStore : store := {[ 1%positive := buildJob ]}.

(** ** Display name, shell template and job identifiers *)

(** The method [String] of [*Step] ([String] alone is the constructor
    of strings here). *)
Definition Step_String (s : Step.t) : string :=
  if negb (String.eqb (Step.Name s) "") then Step.Name s
  else if negb (String.eqb (Step.Uses s) "") then Step.Uses s
  else if negb (String.eqb (Step.Run s) "") then Step.Run s
  else Step.ID s.

(** The double quote character, for the templates that hold one. *)
Definition dquote : string := String "034"%char EmptyString.

(** The method [ShellCommand] of [*Step]: the [switch] tries its cases
    from top to bottom. *)
Definition ShellCommand (s : Step.t) : string :=
  let shell := Step.Shell s in
  if String.eqb shell "" || String.eqb shell "bash"
  then "bash --noprofile --norc -eo pipefail {0}"
  else if String.eqb shell "pwsh"
  then "pwsh -command " +:+ dquote +:+ "& '{0}'" +:+ dquote
  else if String.eqb shell "python"
  then "python {0}"
  else if String.eqb shell "sh"
  then "sh -e -c {0}"
  else if String.eqb shell "cmd"
  then "%ComSpec% /D /E:ON /V:OFF /S /C " +:+ dquote +:+ "CALL "
       +:+ dquote +:+ "{0}" +:+ dquote +:+ dquote
  else if String.eqb shell "powershell"
  then "powershell -command " +:+ dquote +:+ "& '{0}'" +:+ dquote
  else shell.

(** [s.Shell = shell] *)
Definition setShell (shell : string) (s : Step.t) : Step.t :=
  Step.mk (Step.ID s) (Step.If s) (Step.Name s) (Step.Uses s) (Step.Run s)
    (Step.WorkingDirectory s) shell (Step.Env s) (Step.With s)
    (Step.ContinueOnError s) (Step.TimeoutMinutes s).

(** [GetJobIDs]: [for id := range w.Jobs { ids = append(ids, id) }] *)
Definition GetJobIDs (w : Workflow.t) : list string :=
  (map_to_list (Workflow.Jobs w)).*1.

(** ** Predicates on text *)

Fixpoint allChars (p : ascii → bool) (s : string) : bool :=
  match s with
  | EmptyString => true
  | String c rest => p c && allChars p rest
  end.

(** The text is ASCII: every byte is a rune of its own. *)
Definition isASCII (s : string) : bool :=
  allChars (λ c, (N_of_ascii c <? 128)%N) s.

(** The characters of a derived environment key: those of the class
    [A-Z0-9-], and the underscore that replaces the others. *)
Definition keyChar (c : ascii) : bool :=
  between "A" "Z" c || between "0" "9" c || Ascii.eqb c "-" || Ascii.eqb c "_".

(** A step that only names a shell. *)
Definition shellStep (shell : string) : Step.t :=
  Step.mk "" "" "" "" "echo hi" "" shell ∅ ∅ false 0.

(** ** Proof steps

    Case analysis on the outcome of the first action of a sequence:
    only the returning case is left, the outcome named [x] and the
    equation [H]. *)
Tactic Notation "returns" constr(e) "as" ident(x) ident(H) :=
  destruct e as [x| |] eqn:H; simpl; [|done..].

(** ** Comparing interface values *)

Lemma bind_Ok {A B} (f : A → result B) (a : A) : (Ok a ≫= f) = f a.
Proof. reflexivity. Qed.

Lemma same_true a b : same a b = true → a = b.
Proof.
  destruct a, b; simpl; try discriminate; intros H; try done.
  - by apply Bool.eqb_prop in H as ->.
  - by apply Z.eqb_eq in H as ->.
  - by apply String.eqb_eq in H as ->.
Qed.

Lemma same_eq a b : comparable b = true → same a b = true ↔ a = b.
Proof.
  intros Hb. split.
  - destruct a, b; simpl in *; try discriminate; intros H; try done.
    + by apply Bool.eqb_prop in H as ->.
    + by apply Z.eqb_eq in H as ->.
    + by apply String.eqb_eq in H as ->.
  - intros ->. destruct b; simpl in *; try discriminate; try done.
    + apply Bool.eqb_reflx.
    + apply Z.eqb_refl.
    + apply String.eqb_refl.
Qed.

Lemma iface_ne_Ok a b r :
  iface_ne a b = Ok r → r = negb (same a b) ∧ (r = false ↔ a = b).
Proof.
  intros H. assert (Hr : r = negb (same a b)).
  { destruct a, b; simpl in *; congruence. }
  split; [done|]. subst r. rewrite negb_false_iff. split; [apply same_true|].
  intros ->. destruct b; simpl in *; try done.
  - apply Bool.eqb_reflx.
  - apply Z.eqb_refl.
  - apply String.eqb_refl.
Qed.

Lemma iface_ne_same a b : comparable b = true → iface_ne a b = Ok (negb (same a b)).
Proof. intros Hb. by destruct a, b. Qed.

(** ** [commonKeysMatch]

    A comparison that returns decides agreement, whatever the values
    are and in whatever order [range] visits the entries; it returns
    when the values of its second argument are scalars. *)

Lemma commonKeysMatch_range_Ok entries (b : variant) r :
  commonKeysMatch_range entries b = Ok r →
  r = forallb (λ kv, match b !! kv.1 with
                     | Some y => same kv.2 y
                     | None => true
                     end) entries ∧
  (r = true ↔ ∀ k x y, (k, x) ∈ entries → b !! k = Some y → x = y).
Proof.
  revert r. induction entries as [|[k x] rest IH]; intros r; simpl.
  - intros [= <-]. split; [done|]. split; [|done].
    intros _ k x y Hin. by apply elem_of_nil in Hin.
  - destruct (b !! k) as [y|] eqn:Hk.
    + destruct (iface_ne x y) as [ne| |] eqn:Hne; simpl; [|done..].
      apply iface_ne_Ok in Hne as [-> Heq].
      destruct (same x y) eqn:Hsame; simpl.
      * intros [Hr Hiff]%IH. split; [done|]. rewrite Hiff. split.
        -- intros Hrest k' x' y' [[= -> ->]|Hin]%elem_of_cons Hy'; [|by eauto].
           rewrite Hk in Hy'. injection Hy' as <-. by apply Heq.
        -- intros Hall k' x' y' Hin. apply Hall. by right.
      * intros [= <-]. split; [done|]. split; [done|].
        intros Hall. assert (x = y) as Hxy by (apply (Hall k); [left|done]).
        apply Heq in Hxy. done.
    + intros [Hr Hiff]%IH. split; [done|]. rewrite Hiff. split.
      * intros Hrest k' x' y' [[= -> ->]|Hin]%elem_of_cons Hy'; [congruence|by eauto].
      * intros Hall k' x' y' Hin. apply Hall. by right.
Qed.

Lemma commonKeysMatch_Ok (a b : variant) r :
  commonKeysMatch a b = Ok r → r = agreeb a b ∧ (r = true ↔ agree a b).
Proof.
  intros [Hr Hiff]%commonKeysMatch_range_Ok. split; [done|].
  rewrite Hiff. unfold agree. split.
  - intros H k x y Ha. apply H. by apply elem_of_map_to_list.
  - intros H k x y Hin. apply H. by apply elem_of_map_to_list.
Qed.

(** The order in which [range] visits the entries of [a] does not
    show in the answer of a comparison that returns. *)
Lemma commonKeysMatch_any_order (a b : variant) entries r :
  entries ≡ₚ map_to_list a →
  commonKeysMatch_range entries b = Ok r →
  r = agreeb a b ∧ (r = true ↔ agree a b).
Proof.
  intros Hp [Hr Hiff]%commonKeysMatch_range_Ok. split.
  - rewrite Hr. unfold agreeb. apply eq_true_iff_eq. rewrite !forallb_forall.
    split; intros H x Hx; apply H; apply list_elem_of_In;
      apply list_elem_of_In in Hx.
    + by rewrite Hp.
    + by rewrite <- Hp.
  - rewrite Hiff. unfold agree. split.
    + intros H k x y Ha. apply H. rewrite Hp. by apply elem_of_map_to_list.
    + intros H k x y Hin. apply H. rewrite Hp in Hin.
      by apply elem_of_map_to_list.
Qed.

Lemma agreeb_true (a b : variant) : agreeb a b = true → agree a b.
Proof.
  unfold agreeb, agree. rewrite forallb_forall. intros H k x y Ha Hy.
  specialize (H (k, x)). simpl in H. rewrite Hy in H.
  apply same_true, H. apply list_elem_of_In. by apply elem_of_map_to_list.
Qed.

Lemma scalars_lookup (b : variant) k v :
  scalars b = true → b !! k = Some v → comparable v = true.
Proof.
  unfold scalars. rewrite forallb_forall. intros H Hk.
  apply (H (k, v)). apply list_elem_of_In. by apply elem_of_map_to_list.
Qed.

Lemma commonKeysMatch_range_scalars entries (b : variant) :
  scalars b = true →
  commonKeysMatch_range entries b
  = Ok (forallb (λ kv, match b !! kv.1 with
                       | Some y => same kv.2 y
                       | None => true
                       end) entries).
Proof.
  intros Hb. induction entries as [|[k x] rest IH]; [done|].
  simpl. destruct (b !! k) as [y|] eqn:Hk; [|done].
  rewrite (iface_ne_same x y) by eauto using scalars_lookup.
  rewrite bind_Ok. by destruct (same x y).
Qed.

Lemma commonKeysMatch_scalars (a b : variant) :
  scalars b = true → commonKeysMatch a b = Ok (agreeb a b).
Proof. apply commonKeysMatch_range_scalars. Qed.

Lemma agreeb_agree (a b : variant) :
  scalars b = true → agreeb a b = true ↔ agree a b.
Proof.
  intros Hb. unfold agreeb, agree. rewrite forallb_forall. split.
  - intros H k x y Ha Hy.
    specialize (H (k, x)). simpl in H. rewrite Hy in H.
    apply same_eq; [by eapply scalars_lookup|].
    apply H. apply list_elem_of_In. by apply elem_of_map_to_list.
  - intros H [k x] Hin. simpl.
    apply list_elem_of_In, elem_of_map_to_list in Hin.
    destruct (b !! k) as [y|] eqn:Hy; [|done].
    apply same_eq; [by eapply scalars_lookup|]. eauto.
Qed.

(** ** Exclude entries *)

Lemma excluded_Ok (c : variant) excludes r :
  excluded c excludes = Ok r →
  r = existsb (agreeb c) excludes ∧
  (r = true ↔ ∃ e, e ∈ excludes ∧ agree c e).
Proof.
  revert r. induction excludes as [|e rest IH]; intros r; simpl.
  - intros [= <-]. split; [done|]. split; [done|].
    intros (e & Hin & _). by apply elem_of_nil in Hin.
  - returns (commonKeysMatch c e) as hit Hhit.
    apply commonKeysMatch_Ok in Hhit as [<- Hag]. destruct hit.
    + intros [= <-]. split; [done|]. split; [|done].
      intros _. exists e. split; [left|by apply Hag].
    + intros [Hr Hiff]%IH. split; [done|]. rewrite Hiff. split.
      * intros (e' & Hin & He'). exists e'. split; [by right|done].
      * intros (e' & [->|Hin]%elem_of_cons & He'); [|by eauto].
        by apply Hag in He'.
Qed.

Lemma excluded_scalars (c : variant) excludes :
  forallb scalars excludes = true →
  excluded c excludes = Ok (existsb (agreeb c) excludes).
Proof.
  induction excludes as [|e rest IH]; [done|].
  simpl. intros [He Hrest]%andb_prop.
  rewrite commonKeysMatch_scalars, bind_Ok by done.
  destruct (agreeb c e); [done|]. by apply IH.
Qed.

Lemma survivors_nil cands : survivors [] cands = cands.
Proof.
  unfold survivors. simpl. induction cands as [|c cs IH]; [done|].
  simpl. by rewrite IH.
Qed.

Lemma survivors_sublist excludes (cands : list variant) :
  survivors excludes cands `sublist_of` cands.
Proof.
  unfold survivors. induction cands as [|c rest IH]; simpl; [done|].
  destruct (negb _); by constructor.
Qed.

Lemma elem_of_survivors excludes cands (c : variant) :
  Forall (λ c, ∃ r, excluded c excludes = Ok r) cands →
  c ∈ survivors excludes cands
  ↔ c ∈ cands ∧ ∀ e, e ∈ excludes → ¬ agree c e.
Proof.
  intros Hok. unfold survivors.
  rewrite list_elem_of_In, filter_In, <- list_elem_of_In, negb_true_iff.
  split; intros [Hc Hno]; (split; [done|]);
    destruct (proj1 (Forall_forall _ _) Hok c Hc) as [r [Hr Hiff]%excluded_Ok].
  - intros e Hin Hag. rewrite <- Hr in Hno. subst r.
    destruct Hiff as [_ Hiff]. discriminate Hiff. eauto.
  - rewrite <- Hr. apply not_true_is_false. rewrite Hiff.
    intros (e & Hin & Hag). by apply (Hno e).
Qed.

(** ** Include entries *)

Lemma assignAll_union (include matrix : variant) :
  assignAll include matrix = include ∪ matrix.
Proof.
  unfold assignAll.
  apply (map_fold_weak_ind (λ r inc, r = inc ∪ matrix)).
  - by rewrite (left_id_L ∅ (∪)).
  - intros k v inc r _ ->. by rewrite insert_union_l.
Qed.

(** Merging a matching entry only adds keys. *)
Lemma agree_union_subseteq (c inc : variant) : agree c inc → c ⊆ inc ∪ c.
Proof.
  intros Hag. apply map_subseteq_spec. intros k x Hk.
  rewrite lookup_union. destruct (inc !! k) as [y|] eqn:Hy.
  - rewrite (Hag k x y Hk Hy), Hk. done.
  - by rewrite Hk.
Qed.

Lemma withIncludes_nil (cands : list variant) :
  withIncludes [] <$> cands = cands.
Proof. apply list_fmap_id. Qed.

Lemma withIncludes_app pre post (c : variant) :
  withIncludes (pre ++ post) c = withIncludes post (withIncludes pre c).
Proof. apply foldl_app. Qed.

Lemma withIncludes_extends includes (c : variant) :
  c ⊆ withIncludes includes c.
Proof.
  revert c. induction includes as [|inc rest IH]; intros c; [done|].
  simpl. etrans; [|by apply IH].
  destruct (agreeb c inc) eqn:Hag; [|done].
  by apply agree_union_subseteq, agreeb_true.
Qed.

Lemma withIncludes_no_match includes (c : variant) :
  (∀ inc, inc ∈ includes → ¬ agree c inc) →
  withIncludes includes c = c.
Proof.
  induction includes as [|inc rest IH]; [done|].
  simpl. intros Hno. destruct (agreeb c inc) eqn:Hag.
  - exfalso. apply (Hno inc); [by left|]. by apply agreeb_true.
  - apply IH. intros inc' Hin. apply Hno. by right.
Qed.

Lemma applyIncludes_Ok includes (c c' : variant) :
  applyIncludes c includes = Ok c' → c' = withIncludes includes c.
Proof.
  revert c. induction includes as [|inc rest IH]; intros c; simpl.
  - by intros [= <-].
  - returns (commonKeysMatch c inc) as hit Hhit.
    apply commonKeysMatch_Ok in Hhit as [<- _].
    rewrite assignAll_union. apply IH.
Qed.

(** At its turn, an include entry is merged iff it agrees with the
    candidate as extended so far. *)
Lemma applyIncludes_turn pre inc post (c c' : variant) :
  applyIncludes c (pre ++ inc :: post) = Ok c' →
  agreeb (withIncludes pre c) inc = true ↔ agree (withIncludes pre c) inc.
Proof.
  revert c. induction pre as [|i pre IH]; intros c; simpl.
  - returns (commonKeysMatch c inc) as hit Hhit.
    apply commonKeysMatch_Ok in Hhit as [<- Hag]. by intros _.
  - returns (commonKeysMatch c i) as hit Hhit.
    apply commonKeysMatch_Ok in Hhit as [<- _].
    rewrite assignAll_union. apply IH.
Qed.

Lemma applyIncludes_scalars includes (c : variant) :
  forallb scalars includes = true →
  applyIncludes c includes = Ok (withIncludes includes c).
Proof.
  revert c. induction includes as [|i rest IH]; [done|].
  simpl. intros c [Hi Hrest]%andb_prop.
  rewrite commonKeysMatch_scalars, bind_Ok by done.
  rewrite assignAll_union. by apply IH.
Qed.

(** ** The Cartesian product *)

Section cartesian.
Implicit Types (l : list (string * list value)) (v : variant).

Lemma cartesian_cons k vs l :
  cartesian ((k, vs) :: l) = vs ≫= λ x, insert k x <$> cartesian l.
Proof.
  simpl. apply list_bind_ext; [|done]. intros x.
  induction (cartesian l) as [|m ms IH]; [done|].
  rewrite bind_cons, fmap_cons. simpl. by rewrite IH.
Qed.

Lemma cartesian_length l :
  length (cartesian l) = product ((λ kv, length kv.2) <$> l).
Proof.
  induction l as [|[k vs] l IH]; [done|].
  rewrite cartesian_cons, fmap_cons. simpl. rewrite <- IH.
  induction vs as [|x vs IHvs]; [done|].
  rewrite bind_cons, length_app, length_fmap, IHvs. simpl. lia.
Qed.

Lemma elem_of_cartesian_cons k vs l v :
  v ∈ cartesian ((k, vs) :: l)
  ↔ ∃ x m, x ∈ vs ∧ m ∈ cartesian l ∧ v = <[k := x]> m.
Proof.
  rewrite cartesian_cons, list_elem_of_bind. split.
  - intros (x & (m & -> & Hm)%list_elem_of_fmap & Hx). eauto.
  - intros (x & m & Hx & Hm & ->). exists x. split; [|done].
    apply list_elem_of_fmap. eauto.
Qed.

(** Every variant of the product has exactly the keys of the axes. *)
Lemma cartesian_keys l v k :
  v ∈ cartesian l → is_Some (v !! k) ↔ k ∈ l.*1.
Proof.
  revert v. induction l as [|[k' vs] l IH]; intros v.
  - simpl. intros ->%list_elem_of_singleton.
    rewrite lookup_empty, elem_of_nil. split; [by intros [? ?]|done].
  - intros (x & m & Hx & Hm & ->)%elem_of_cartesian_cons.
    rewrite lookup_insert_is_Some, fmap_cons, elem_of_cons, (IH m Hm). simpl.
    destruct (decide (k' = k)); naive_solver.
Qed.

Lemma elem_of_cartesian l v :
  NoDup l.*1 →
  v ∈ cartesian l
  ↔ (∀ k, is_Some (v !! k) ↔ k ∈ l.*1) ∧
    (∀ k vs, (k, vs) ∈ l → ∃ x, v !! k = Some x ∧ x ∈ vs).
Proof.
  revert v. induction l as [|[k vs] l IH]; intros v Hnd.
  - simpl. rewrite list_elem_of_singleton. split.
    + intros ->. split.
      * intros k. rewrite lookup_empty, elem_of_nil. split; [by intros [? ?]|done].
      * intros k vs Hin. by apply elem_of_nil in Hin.
    + intros [Hdom _]. apply map_eq. intros k. rewrite lookup_empty.
      apply eq_None_not_Some. rewrite Hdom. apply not_elem_of_nil.
  - rewrite fmap_cons in Hnd. apply NoDup_cons in Hnd as [Hk Hnd]. simpl in Hk.
    split.
    + intros Hv. split; [intros k'; by apply cartesian_keys|].
      apply elem_of_cartesian_cons in Hv as (x & m & Hx & Hm & ->).
      intros k' vs' [Heq|Hin]%elem_of_cons.
      * injection Heq as -> ->. exists x. by rewrite lookup_insert_eq.
      * apply (IH m Hnd) in Hm as [_ Hval].
        destruct (Hval k' vs' Hin) as (y & Hy & Hyin).
        exists y. split; [|done]. rewrite lookup_insert_ne; [done|].
        intros <-. apply Hk. apply list_elem_of_fmap. by exists (k, vs').
    + intros [Hdom Hval]. apply elem_of_cartesian_cons.
      destruct (Hval k vs) as (x & Hx & Hxin); [left|].
      exists x, (delete k v). split_and!; [done| |by rewrite insert_delete_id].
      apply (IH _ Hnd). split.
      * intros k'. rewrite lookup_delete_is_Some, Hdom, fmap_cons, elem_of_cons.
        simpl. split; [naive_solver|]. intros Hin. split; [|by right].
        by intros <-.
      * intros k' vs' Hin. destruct (Hval k' vs') as (y & Hy & Hyin); [by right|].
        exists y. split; [|done]. rewrite lookup_delete_ne; [done|].
        intros <-. apply Hk. apply list_elem_of_fmap. by exists (k, vs').
Qed.

Lemma cartesian_NoDup l :
  NoDup l.*1 → Forall (λ kv, NoDup kv.2) l → NoDup (cartesian l).
Proof.
  induction l as [|[k vs] l IH]; intros Hnd Hvs.
  - simpl. apply NoDup_singleton.
  - rewrite fmap_cons in Hnd. apply NoDup_cons in Hnd as [Hk Hnd]. simpl in Hk.
    apply Forall_cons in Hvs as [Hvs Hl]. simpl in Hvs.
    assert (Hfresh : ∀ m, m ∈ cartesian l → m !! k = None).
    { intros m Hm. apply eq_None_not_Some. by rewrite (cartesian_keys l m k Hm). }
    rewrite cartesian_cons. apply NoDup_bind; [| |done].
    + intros x1 x2 m _ _ (m1 & -> & Hm1)%list_elem_of_fmap
        (m2 & Heq & Hm2)%list_elem_of_fmap.
      apply (f_equal (lookup k)) in Heq.
      rewrite !lookup_insert_eq in Heq. congruence.
    + intros x _. apply NoDup_fmap_2_strong; [|by apply IH].
      intros m1 m2 Hm1 Hm2 Heq.
      apply (f_equal (delete k)) in Heq.
      by rewrite !delete_insert_id in Heq by auto.
Qed.
End cartesian.

Lemma CartesianProduct_length m :
  length (CartesianProduct m) = product (axisSizes m).
Proof. apply cartesian_length. Qed.

Lemma elem_of_CartesianProduct m v :
  v ∈ CartesianProduct m ↔ combination m v.
Proof.
  unfold CartesianProduct, combination.
  rewrite elem_of_cartesian by apply NoDup_fst_map_to_list.
  assert (Hkeys : ∀ k, k ∈ (map_to_list m).*1 ↔ is_Some (m !! k)).
  { intros k. rewrite list_elem_of_fmap. split.
    - intros ([k' vs] & -> & Hin). apply elem_of_map_to_list in Hin. by eexists.
    - intros [vs Hvs]. exists (k, vs). by rewrite elem_of_map_to_list. }
  split; intros [Hdom Hval]; split.
  - intros k. by rewrite Hdom, Hkeys.
  - intros k vs Hk. apply Hval. by apply elem_of_map_to_list.
  - intros k. by rewrite Hdom, Hkeys.
  - intros k vs Hk. apply Hval. by apply elem_of_map_to_list in Hk.
Qed.

Lemma CartesianProduct_NoDup m :
  map_Forall (λ _ vs, NoDup vs) m → NoDup (CartesianProduct m).
Proof.
  intros Hm. apply cartesian_NoDup; [apply NoDup_fst_map_to_list|].
  apply Forall_forall. intros [k vs] Hin%elem_of_map_to_list. by apply (Hm k).
Qed.

(** Two variants of one product that are included in one another
    are the same variant. *)
Lemma CartesianProduct_subseteq_eq m (c1 c2 : variant) :
  c1 ∈ CartesianProduct m → c2 ∈ CartesianProduct m → c1 ⊆ c2 → c1 = c2.
Proof.
  intros [Hk1 _]%elem_of_CartesianProduct [Hk2 _]%elem_of_CartesianProduct Hsub.
  apply map_eq. intros k. destruct (c1 !! k) as [x|] eqn:H1.
  - symmetry. by eapply lookup_weaken.
  - symmetry. apply eq_None_not_Some. rewrite Hk2, <- Hk1, H1.
    by intros [? ?].
Qed.

(** ** The matrix without its reserved keys *)

Lemma axis_delete_ne name name' m :
  name ≠ name' → axis name (delete name' m) = axis name m.
Proof. intros. unfold axis. by rewrite lookup_delete_ne. Qed.

Lemma axes_lookup_include m : axes m !! "include" = None.
Proof. unfold axes. by rewrite lookup_delete_ne, lookup_delete_eq. Qed.

Lemma axes_lookup_exclude m : axes m !! "exclude" = None.
Proof. unfold axes. by rewrite lookup_delete_eq. Qed.

Lemma axes_lookup_other m k :
  k ≠ "include" → k ≠ "exclude" → axes m !! k = m !! k.
Proof. intros. unfold axes. by rewrite !lookup_delete_ne. Qed.

Lemma axes_idemp m : axes (axes m) = axes m.
Proof.
  unfold axes at 1.
  rewrite (delete_id _ "include") by apply axes_lookup_include.
  apply delete_id, axes_lookup_exclude.
Qed.

Lemma axes_id m :
  m !! "include" = None → m !! "exclude" = None → axes m = m.
Proof. intros Hi He. unfold axes. by rewrite (delete_id m "include"), delete_id. Qed.

(** ** Calls of [GetMatrixes] *)

Lemma matrixLoop_Ok cands excludes includes acc out :
  matrixLoop cands excludes includes acc = Ok out →
  out = acc ++ (withIncludes includes <$> survivors excludes cands) ∧
  Forall (λ c, ∃ r, excluded c excludes = Ok r) cands ∧
  Forall (λ c, ∃ c', applyIncludes c includes = Ok c')
         (survivors excludes cands).
Proof.
  revert acc. induction cands as [|c rest IH]; intros acc; simpl.
  - intros [= <-]. by rewrite app_nil_r.
  - returns (excluded c excludes) as skip Hskip.
    pose proof Hskip as [<- _]%excluded_Ok. destruct skip; simpl.
    + intros (-> & Hex & Hin)%IH. split_and!; [done| |done].
      constructor; [by eexists|done].
    + returns (applyIncludes c includes) as c' Hc'.
      pose proof Hc' as ->%applyIncludes_Ok.
      intros (-> & Hex & Hin)%IH. split_and!.
      * by rewrite <- app_assoc.
      * constructor; [by eexists|done].
      * constructor; [by eexists|done].
Qed.

Lemma matrixLoop_scalars cands excludes includes acc :
  forallb scalars excludes = true →
  forallb scalars includes = true →
  matrixLoop cands excludes includes acc
  = Ok (acc ++ (withIncludes includes <$> survivors excludes cands)).
Proof.
  intros He Hi. revert acc.
  induction cands as [|c rest IH]; intros acc; simpl.
  - by rewrite app_nil_r.
  - rewrite excluded_scalars, bind_Ok by done.
    destruct (existsb (agreeb c) excludes); simpl; [apply IH|].
    rewrite applyIncludes_scalars, bind_Ok by done.
    rewrite IH. by rewrite <- app_assoc.
Qed.

Lemma mapM_assertMap_Ok (l : list value) (ms : list variant) :
  mapM assertMap l = Ok ms → l = VMap <$> ms.
Proof.
  revert ms. induction l as [|v l IH]; intros ms.
  - by intros [= <-].
  - change (mapM assertMap (v :: l))
      with (y ← assertMap v; k ← mapM assertMap l; mret (y :: k)).
    destruct v; simpl; try done.
    returns (mapM assertMap l) as ms' Hms.
    intros [= <-]. by rewrite (IH ms').
Qed.

Lemma mapM_assertMap (l : list variant) : mapM assertMap (VMap <$> l) = Ok l.
Proof.
  induction l as [|m l IH]; [done|].
  change (mapM assertMap (VMap <$> m :: l))
    with (y ← assertMap (VMap m); k ← mapM assertMap (VMap <$> l); mret (y :: k)).
  by rewrite IH.
Qed.

(** What any call that returns has done. *)
Lemma GetMatrixes_Ok (j j' : Job.t) (s : Strategy.t) out :
  Job.Strategy j = Some s →
  GetMatrixes j = Ok (out, j') →
  ∃ includes excludes,
    axis "include" (Strategy.Matrix s) = VMap <$> includes ∧
    axis "exclude" (Strategy.Matrix s) = VMap <$> excludes ∧
    matrixLoop (CartesianProduct (axes (Strategy.Matrix s))) excludes includes []
    = Ok out ∧
    j' = Job.setStrategy
           (Some (Strategy.setMatrix (axes (Strategy.Matrix s)) s)) j.
Proof.
  unfold GetMatrixes. intros ->.
  destruct (mapM assertMap (axis "include" _)) as [incs| |] eqn:Hi; simpl; [|done..].
  destruct (mapM assertMap (axis "exclude" _)) as [excs| |] eqn:He; simpl; [|done..].
  destruct (matrixLoop _ _ _ _) as [ms| |] eqn:Hloop; simpl; [|done..].
  intros [= <- <-]. exists incs, excs.
  apply mapM_assertMap_Ok in Hi, He.
  rewrite axis_delete_ne in He by done. done.
Qed.

(** A call that returns leaves the job with the two reserved keys
    deleted from its matrix, whatever the matrix held. *)
Lemma GetMatrixes_state (j j' : Job.t) (s : Strategy.t) out :
  Job.Strategy j = Some s →
  GetMatrixes j = Ok (out, j') →
  j' = Job.setStrategy (Some (Strategy.setMatrix (axes (Strategy.Matrix s)) s)) j.
Proof.
  intros Hs Hcall.
  by destruct (GetMatrixes_Ok j j' s out Hs Hcall) as (? & ? & _ & _ & _ & ?).
Qed.

(** The call in closed form, for entries that are mappings of scalar
    values. *)
Lemma GetMatrixes_closed_form (j : Job.t) (s : Strategy.t) includes excludes :
  Job.Strategy j = Some s →
  axis "include" (Strategy.Matrix s) = VMap <$> includes →
  axis "exclude" (Strategy.Matrix s) = VMap <$> excludes →
  forallb scalars includes = true →
  forallb scalars excludes = true →
  GetMatrixes j
  = Ok (withIncludes includes
          <$> survivors excludes (CartesianProduct (axes (Strategy.Matrix s))),
        Job.setStrategy
          (Some (Strategy.setMatrix (axes (Strategy.Matrix s)) s)) j).
Proof.
  intros Hs Hinc Hexc Hi He. unfold GetMatrixes. rewrite Hs.
  rewrite Hinc, mapM_assertMap, bind_Ok.
  rewrite axis_delete_ne, Hexc, mapM_assertMap, bind_Ok by done.
  by rewrite matrixLoop_scalars, bind_Ok.
Qed.

(** The call returns when the include and exclude entries are
    mappings of scalar values. *)
Lemma GetMatrixes_returns (j : Job.t) (s : Strategy.t) includes excludes :
  Job.Strategy j = Some s →
  axis "include" (Strategy.Matrix s) = VMap <$> includes →
  axis "exclude" (Strategy.Matrix s) = VMap <$> excludes →
  forallb scalars includes = true →
  forallb scalars excludes = true →
  ∃ out j', GetMatrixes j = Ok (out, j').
Proof.
  intros Hs Hinc Hexc Hi He. eexists _, _.
  by apply (GetMatrixes_closed_form j s includes excludes).
Qed.

Lemma GetMatrixesAt_Ok l (h h' : store) (j : Job.t) out :
  h !! l = Some j →
  GetMatrixesAt l h = Ok (out, h') →
  ∃ j', GetMatrixes j = Ok (out, j') ∧ h' = <[l := j']> h.
Proof.
  unfold GetMatrixesAt. intros ->.
  destruct (GetMatrixes j) as [[out' j']| |]; simpl; [|done..].
  intros [= <- <-]. by exists j'.
Qed.

(** A candidate that an exclude entry matches is not in the output,
    not even as another candidate extended by include entries. *)
Lemma excluded_not_in_output m includes excludes (c : variant) :
  Forall (λ c, ∃ r, excluded c excludes = Ok r) (CartesianProduct m) →
  c ∈ CartesianProduct m →
  (∃ e, e ∈ excludes ∧ agree c e) →
  c ∉ withIncludes includes <$> survivors excludes (CartesianProduct m).
Proof.
  intros Hok Hc (e & He & Hag) (c2 & -> & Hc2)%list_elem_of_fmap.
  pose proof Hc2 as [Hin2 _]%elem_of_survivors; [|done].
  assert (c2 = withIncludes includes c2) as Heq.
  { apply (CartesianProduct_subseteq_eq m); [done..|].
    apply withIncludes_extends. }
  rewrite <- Heq in Hag.
  apply elem_of_survivors in Hc2 as [_ Hno]; [|done].
  by apply (Hno e).
Qed.

(** ** Steps and job lookup *)

Lemma HasPrefix_spec (s p : string) :
  HasPrefix s p = true ↔ ∃ rest, s = String.append p rest.
Proof.
  unfold HasPrefix. revert s. induction p as [|c p IH]; intros s; simpl.
  - destruct s; (split; [by eexists|done]).
  - destruct s as [|d s]; simpl.
    + split; [done|]. by intros [rest ?].
    + destruct (ascii_dec c d) as [->|Hne].
      * rewrite IH. split; intros [rest Hr]; exists rest.
        -- by rewrite Hr.
        -- by injection Hr.
      * split; [done|]. intros [rest Hr]. by injection Hr.
Qed.

Lemma copyEnv (env : gmap string string) :
  map_fold (λ k v acc, <[k := v]> acc) ∅ env = env.
Proof.
  apply (map_fold_weak_ind (λ r m, r = m)); [done|].
  by intros k v m r _ ->.
Qed.

Lemma GetEnv_single_input (s : Step.t) k v :
  Step.With s = {[ k := v ]} → GetEnv s = <[envKey k := v]> (Step.Env s).
Proof. intros Hw. unfold GetEnv. by rewrite Hw, map_fold_singleton, copyEnv. Qed.

Lemma GetJob_range_miss entries jobID h :
  jobID ∉ entries.*1 → GetJob_range entries jobID h = Ok (None, h).
Proof.
  induction entries as [|[id j] rest IH]; [done|].
  rewrite fmap_cons, not_elem_of_cons. simpl. intros [Hne Hrest].
  apply String.eqb_neq in Hne. rewrite Hne. by apply IH.
Qed.

Lemma GetJob_range_hit entries jobID j h :
  NoDup entries.*1 → (jobID, j) ∈ entries →
  GetJob_range entries jobID h = GetJob_hit jobID j h.
Proof.
  induction entries as [|[id j'] rest IH]; intros Hnd Hin.
  - by apply elem_of_nil in Hin.
  - rewrite fmap_cons in Hnd. apply NoDup_cons in Hnd as [Hid Hnd].
    simpl in *. apply elem_of_cons in Hin as [[= <- <-]|Hin].
    + by rewrite String.eqb_refl.
    + destruct (String.eqb_spec jobID id) as [->|Hne]; [|by apply IH].
      exfalso. apply Hid. apply list_elem_of_fmap. by exists (id, j).
Qed.

Lemma GetJob_lookup (w : Workflow.t) jobID h :
  GetJob w jobID h
  = match Workflow.Jobs w !! jobID with
    | Some j => GetJob_hit jobID j h
    | None => Ok (None, h)
    end.
Proof.
  unfold GetJob. destruct (Workflow.Jobs w !! jobID) as [j|] eqn:Hj.
  - apply GetJob_range_hit; [apply NoDup_fst_map_to_list|].
    by apply elem_of_map_to_list.
  - apply GetJob_range_miss.
    intros ([id j] & -> & Hin%elem_of_map_to_list)%list_elem_of_fmap.
    simpl in Hj. congruence.
Qed.

Lemma GetJob_hit_idemp id j h p h' :
  GetJob_hit id j h = Ok (p, h') → GetJob_hit id j h' = Ok (p, h').
Proof.
  unfold GetJob_hit. destruct j as [l|]; [|done].
  destruct (h !! l) as [job|] eqn:Hl; [|done].
  destruct (String.eqb_spec (Job.Name job) "") as [Hn|Hn].
  - intros [= <- <-]. rewrite lookup_insert_eq.
    destruct (String.eqb_spec (Job.Name (Job.setName id job)) "") as [Hn'|Hn'];
      [|done].
    by rewrite insert_insert_eq.
  - intros [= <- <-]. rewrite Hl.
    by destruct (String.eqb_spec (Job.Name job) "").
Qed.

(** * The matrix expander *)

(** C1.  A job whose strategy matrix holds no include and no exclude
    entries expands to the Cartesian product of its axes: the call
    returns, the number of variants is the product of the sizes of
    the axes, and the variants are the combinations of one candidate
    value per axis (each once, when no axis repeats a value). *)
Theorem GetMatrixes_plain_product (j : Job.t) (s : Strategy.t) :
  Job.Strategy j = Some s →
  axis "include" (Strategy.Matrix s) = [] →
  axis "exclude" (Strategy.Matrix s) = [] →
  ∃ out j',
    GetMatrixes j = Ok (out, j') ∧
    length out = product (axisSizes (axes (Strategy.Matrix s))) ∧
    (∀ v, v ∈ out ↔ combination (axes (Strategy.Matrix s)) v) ∧
    (map_Forall (λ _ vs, NoDup vs) (axes (Strategy.Matrix s)) → NoDup out).
Proof.
  intros Hs Hi He. eexists _, _. split.
  - by apply (GetMatrixes_closed_form j s [] []).
  - rewrite survivors_nil, withIncludes_nil. split_and!.
    + apply CartesianProduct_length.
    + apply elem_of_CartesianProduct.
    + apply CartesianProduct_NoDup.
Qed.

Lemma GetMatrixes_plain_product_witness :
  ∃ out j',
    GetMatrixes (matrixJob plainMatrix) = Ok (out, j') ∧ length out = 6.
Proof.
  destruct (GetMatrixes_plain_product (matrixJob plainMatrix) _
              eq_refl eq_refl eq_refl) as (out & j' & Hcall & Hlen & _).
  exists out, j'. split; [exact Hcall|]. rewrite Hlen. reflexivity.
Defined.

(** C2.  A comparison of a candidate with an exclude entry that
    returns says "match" iff the two agree on every key present in
    both, and it returns whenever the values of the entry are scalars.
    A call of [GetMatrixes] that returns builds its output from
    exactly the candidates of the Cartesian product that no exclude
    entry matches, in the order of the product, and a candidate that
    an exclude entry matches is nowhere in the output; the call
    returns when the include and exclude entries are mappings of
    scalar values.
    Matrix {a: [1, 2]} with exclude [{}] has an empty output. *)
Theorem GetMatrixes_exclude (j : Job.t) (s : Strategy.t) :
  Job.Strategy j = Some s →
  let cands := CartesianProduct (axes (Strategy.Matrix s)) in
  (∀ c e r, commonKeysMatch c e = Ok r → (r = true ↔ agree c e)) ∧
  (∀ c e, scalars e = true → ∃ r, commonKeysMatch c e = Ok r) ∧
  (∀ includes excludes,
     axis "include" (Strategy.Matrix s) = VMap <$> includes →
     axis "exclude" (Strategy.Matrix s) = VMap <$> excludes →
     forallb scalars includes = true →
     forallb scalars excludes = true →
     ∃ out j', GetMatrixes j = Ok (out, j')) ∧
  (∀ out j', GetMatrixes j = Ok (out, j') →
     ∃ includes excludes,
       axis "include" (Strategy.Matrix s) = VMap <$> includes ∧
       axis "exclude" (Strategy.Matrix s) = VMap <$> excludes ∧
       out = withIncludes includes <$> survivors excludes cands ∧
       survivors excludes cands `sublist_of` cands ∧
       (∀ c, c ∈ survivors excludes cands
             ↔ c ∈ cands ∧ ∀ e, e ∈ excludes → ¬ agree c e) ∧
       (∀ c, c ∈ cands → (∃ e, e ∈ excludes ∧ agree c e) → c ∉ out)) ∧
  (∃ j', GetMatrixes (matrixJob excludeAllMatrix) = Ok ([], j')).
Proof.
  intros Hs cands. split_and!.
  - intros c e r Hr. by apply commonKeysMatch_Ok in Hr as [_ ?].
  - intros c e Hsc. eexists. by apply commonKeysMatch_scalars.
  - intros includes excludes. by apply GetMatrixes_returns.
  - intros out j' Hcall.
    destruct (GetMatrixes_Ok j j' s out Hs Hcall)
      as (includes & excludes & Hinc & Hexc & Hloop & _).
    apply matrixLoop_Ok in Hloop as (-> & Hex & _).
    exists includes, excludes. split_and!; try done.
    + apply survivors_sublist.
    + intros c. by apply elem_of_survivors.
    + intros c. by apply excluded_not_in_output.
  - eexists. vm_compute. reflexivity.
Qed.

Lemma GetMatrixes_exclude_witness :
  ∃ out j', GetMatrixes (matrixJob excludeOneMatrix) = Ok (out, j').
Proof.
  destruct (GetMatrixes_exclude (matrixJob excludeOneMatrix) _ eq_refl)
    as (_ & _ & Hret & _).
  exact (Hret [] [ {[ "a" := VInt 1 ]} ] eq_refl eq_refl eq_refl eq_refl).
Defined.

(** C3, as the specification words it, fails: with matrix {a: [1]}
    and include [{a: 1, b: 9}, {a: 1, b: 8}] both include entries
    partial-key-match the candidate {a: 1}, so the last write would
    leave b = 8; the call returns {a: 1, b: 9}. *)
Lemma include_last_write_counterexample :
  let c : variant := {[ "a" := VInt 1 ]} in
  CartesianProduct (axes conflictMatrix) = [c] ∧
  Forall (λ inc, commonKeysMatch c inc = Ok true) conflictIncludes ∧
  withIncludes_claimed conflictIncludes c = {[ "a" := VInt 1; "b" := VInt 8 ]} ∧
  (∃ j', GetMatrixes (matrixJob conflictMatrix)
         = Ok ([ {[ "a" := VInt 1; "b" := VInt 9 ]} ], j')) ∧
  ¬ (∃ j', GetMatrixes (matrixJob conflictMatrix)
           = Ok (withIncludes_claimed conflictIncludes <$> [c], j')).
Proof.
  split_and!.
  - vm_compute. reflexivity.
  - repeat constructor.
  - vm_compute. reflexivity.
  - eexists. vm_compute. reflexivity.
  - intros [j' Hcall]. vm_compute in Hcall. discriminate Hcall.
Qed.

(** C3, amended.  A call of [GetMatrixes] that returns puts out
    every surviving candidate with the include entries applied in
    declaration order, each entry matched against the candidate as
    the earlier entries have extended it: an entry that agrees with
    it at its turn has its keys merged and they stay (merging only
    adds keys, nothing already present changes), an entry that does
    not agree at its turn is skipped, and a candidate that no include
    entry matches is put out unchanged.  The call returns when the
    include and exclude entries are mappings of scalar values.
    Matrix {a: [1, 2]} with include [{a: 1, b: 9}] gives {a: 1, b: 9}
    and {a: 2}. *)
Theorem GetMatrixes_include (j : Job.t) (s : Strategy.t) :
  Job.Strategy j = Some s →
  let cands := CartesianProduct (axes (Strategy.Matrix s)) in
  (∀ includes excludes,
     axis "include" (Strategy.Matrix s) = VMap <$> includes →
     axis "exclude" (Strategy.Matrix s) = VMap <$> excludes →
     forallb scalars includes = true →
     forallb scalars excludes = true →
     ∃ out j', GetMatrixes j = Ok (out, j')) ∧
  (∀ out j', GetMatrixes j = Ok (out, j') →
     ∃ includes excludes,
       axis "include" (Strategy.Matrix s) = VMap <$> includes ∧
       axis "exclude" (Strategy.Matrix s) = VMap <$> excludes ∧
       out = withIncludes includes <$> survivors excludes cands ∧
       ∀ c, c ∈ survivors excludes cands →
         (∀ pre inc post, includes = pre ++ inc :: post →
            let c' := withIncludes pre c in
            (agree c' inc →
               withIncludes (pre ++ [inc]) c = inc ∪ c' ∧
               c' ⊆ inc ∪ c' ∧ inc ⊆ withIncludes includes c) ∧
            (¬ agree c' inc → withIncludes (pre ++ [inc]) c = c')) ∧
         c ⊆ withIncludes includes c ∧
         ((∀ inc, inc ∈ includes → ¬ agree c inc) →
            withIncludes includes c = c)) ∧
  (∃ j', GetMatrixes (matrixJob includeMatrix)
         = Ok ([ {[ "a" := VInt 1; "b" := VInt 9 ]}; {[ "a" := VInt 2 ]} ], j')).
Proof.
  intros Hs cands. split_and!.
  - intros includes excludes. by apply GetMatrixes_returns.
  - intros out j' Hcall.
    destruct (GetMatrixes_Ok j j' s out Hs Hcall)
      as (includes & excludes & Hinc & Hexc & Hloop & _).
    apply matrixLoop_Ok in Hloop as (-> & _ & Hin).
    exists includes, excludes. split_and!; try done.
    intros c Hc. split_and!.
    + intros pre inc post -> c'.
      destruct (proj1 (Forall_forall _ _) Hin c Hc) as [cf Hcf].
      apply applyIncludes_turn in Hcf as Hag. fold c' in Hag.
      rewrite !withIncludes_app. fold c'. simpl. split.
      * intros Hyes. apply Hag in Hyes as Hb. rewrite Hb. split_and!.
        -- done.
        -- by apply agree_union_subseteq.
        -- etrans; [|by apply withIncludes_extends].
           apply map_union_subseteq_l.
      * intros Hno. destruct (agreeb c' inc); [|done].
        exfalso. by apply Hno, Hag.
    + apply withIncludes_extends.
    + apply withIncludes_no_match.
  - eexists. vm_compute. reflexivity.
Qed.

Lemma GetMatrixes_include_witness :
  ∃ out j', GetMatrixes (matrixJob conflictMatrix) = Ok (out, j').
Proof.
  destruct (GetMatrixes_include (matrixJob conflictMatrix) _ eq_refl)
    as (Hret & _).
  exact (Hret conflictIncludes [] eq_refl eq_refl eq_refl eq_refl).
Defined.

(** C4.  For a job with a strategy, a call of [GetMatrixes] that
    returns leaves the strategy's matrix without the keys "include"
    and "exclude" and with every other axis as it was; the other
    fields of the strategy and of the job are untouched; for a job
    in the store, this job is what the pointer refers to after the
    call.  The call does return when the include and exclude entries
    are mappings of scalar values. *)
Theorem GetMatrixes_deletes_reserved_keys (j : Job.t) (s : Strategy.t) :
  Job.Strategy j = Some s →
  (∀ includes excludes,
     axis "include" (Strategy.Matrix s) = VMap <$> includes →
     axis "exclude" (Strategy.Matrix s) = VMap <$> excludes →
     forallb scalars includes = true →
     forallb scalars excludes = true →
     ∃ out j', GetMatrixes j = Ok (out, j')) ∧
  (∀ out j', GetMatrixes j = Ok (out, j') →
     ∃ s', Job.Strategy j' = Some s' ∧
       Strategy.Matrix s' !! "include" = None ∧
       Strategy.Matrix s' !! "exclude" = None ∧
       (∀ k, k ≠ "include" → k ≠ "exclude" →
             Strategy.Matrix s' !! k = Strategy.Matrix s !! k) ∧
       Strategy.FailFast s' = Strategy.FailFast s ∧
       Strategy.MaxParallel s' = Strategy.MaxParallel s ∧
       Job.setStrategy (Job.Strategy j) j' = j) ∧
  (∀ l (h h' : store) out,
     h !! l = Some j →
     GetMatrixesAt l h = Ok (out, h') →
     h' = <[l := Job.setStrategy
                   (Some (Strategy.setMatrix (axes (Strategy.Matrix s)) s)) j]> h).
Proof.
  intros Hs. split_and!.
  - intros includes excludes. by apply GetMatrixes_returns.
  - intros out j' Hcall. apply (GetMatrixes_state j j' s out Hs) in Hcall as ->.
    eexists. split; [reflexivity|]. simpl. split_and!.
    + apply axes_lookup_include.
    + apply axes_lookup_exclude.
    + intros k. apply axes_lookup_other.
    + done.
    + done.
    + by destruct j.
  - intros l h h' out Hl (j' & Hcall & ->)%(GetMatrixesAt_Ok l h h' j out Hl).
    by apply (GetMatrixes_state j j' s out Hs) in Hcall as ->.
Qed.

Lemma GetMatrixes_deletes_reserved_keys_witness :
  ∃ out j' s',
    GetMatrixes (matrixJob includeMatrix) = Ok (out, j') ∧
    Job.Strategy j' = Some s' ∧
    Strategy.Matrix s' !! "include" = None ∧
    Strategy.Matrix s' !! "a" = Some [VInt 1; VInt 2].
Proof.
  destruct (GetMatrixes_deletes_reserved_keys (matrixJob includeMatrix) _ eq_refl)
    as (Hret & Hpost & _).
  destruct (Hret [ {[ "a" := VInt 1; "b" := VInt 9 ]} ] []
              eq_refl eq_refl eq_refl eq_refl) as (out & j' & Hcall).
  destruct (Hpost out j' Hcall) as (s' & Hs' & Hi & _ & Hother & _).
  exists out, j', s'. split_and!; [exact Hcall|exact Hs'|exact Hi|].
  rewrite Hother by discriminate. reflexivity.
Defined.

(** C9.  A job without a strategy expands to exactly one variant, the
    empty mapping, and is left as it was. *)
Theorem GetMatrixes_no_strategy (j : Job.t) :
  Job.Strategy j = None → GetMatrixes j = Ok ([(∅ : variant)], j).
Proof. intros Hs. unfold GetMatrixes. by rewrite Hs. Qed.

Lemma GetMatrixes_no_strategy_witness :
  GetMatrixes plainJob = Ok ([(∅ : variant)], plainJob).
Proof. apply (GetMatrixes_no_strategy plainJob). reflexivity. Defined.

(** C10.  After a call of [GetMatrixes] on a job with a strategy has
    returned, a second call on the same job returns the plain
    Cartesian product of the axes, with no exclude filtering and no
    include merging, and changes nothing more; so it is for two calls
    through one pointer into the store.  For matrix
    {a: [1, 2]} with exclude [{a: 1}] the first call returns {a: 2}
    only and the second call returns {a: 1} and {a: 2}. *)
Theorem GetMatrixes_second_call (j j1 : Job.t) (s : Strategy.t) out1 :
  Job.Strategy j = Some s →
  GetMatrixes j = Ok (out1, j1) →
  GetMatrixes j1 = Ok (CartesianProduct (axes (Strategy.Matrix s)), j1) ∧
  (∀ l (h h1 : store),
     h !! l = Some j →
     GetMatrixesAt l h = Ok (out1, h1) →
     GetMatrixesAt l h1 = Ok (CartesianProduct (axes (Strategy.Matrix s)), h1)) ∧
  (∃ j1', GetMatrixes (matrixJob excludeOneMatrix)
            = Ok ([ {[ "a" := VInt 2 ]} ], j1') ∧
          GetMatrixes j1'
            = Ok ([ {[ "a" := VInt 1 ]}; {[ "a" := VInt 2 ]} ], j1')).
Proof.
  intros Hs Hcall.
  assert (Hsecond : GetMatrixes j1
                    = Ok (CartesianProduct (axes (Strategy.Matrix s)), j1)).
  { apply (GetMatrixes_state j j1 s out1 Hs) in Hcall as ->.
    rewrite (GetMatrixes_closed_form _
               (Strategy.setMatrix (axes (Strategy.Matrix s)) s) [] []);
      try done; simpl.
    - rewrite survivors_nil, withIncludes_nil, axes_idemp. by destruct j.
    - unfold axis. by rewrite axes_lookup_include.
    - unfold axis. by rewrite axes_lookup_exclude. }
  split_and!.
  - done.
  - intros l h h1 Hl (j' & Hcall' & ->)%(GetMatrixesAt_Ok l h h1 j out1 Hl).
    assert (j' = j1) as -> by congruence.
    unfold GetMatrixesAt. rewrite lookup_insert_eq, Hsecond. simpl.
    by rewrite insert_insert_eq.
  - eexists. split; vm_compute; reflexivity.
Qed.

Lemma GetMatrixes_second_call_witness :
  ∃ j1, GetMatrixes (matrixJob includeMatrix)
          = Ok ([ {[ "a" := VInt 1; "b" := VInt 9 ]}; {[ "a" := VInt 2 ]} ], j1) ∧
        GetMatrixes j1 = Ok ([ {[ "a" := VInt 1 ]}; {[ "a" := VInt 2 ]} ], j1).
Proof.
  eexists. split; [vm_compute; reflexivity|].
  refine (eq_trans (proj1 (GetMatrixes_second_call (matrixJob includeMatrix) _ _ _
                             eq_refl eq_refl)) _).
  vm_compute. reflexivity.
Defined.

(** * The polymorphic field normaliser *)

(** C5, as stated, fails for the dependency field: on the mapping
    node {push: {}}, whose one key is "push", [On] yields ["push"]
    but [Needs] yields the empty sequence. *)
Lemma Needs_mapping_counterexample :
  Node_Kind pushMapping = MappingNode ∧
  (∃ val, decodeMap (Decoder := plainDecoder) pushMapping = Some val ∧
          is_Some (val !! "push")) ∧
  On (H := plainDecoder) (workflowOn pushMapping) = Ok ["push"] ∧
  Needs (H := plainDecoder) (jobNeeds pushMapping) = Ok [] ∧
  Needs (H := plainDecoder) (jobNeeds pushMapping)
  ≠ On (H := plainDecoder) (workflowOn pushMapping).
Proof.
  split_and!; try reflexivity.
  - eexists. split; [reflexivity|]. vm_compute. by eexists.
  - vm_compute. discriminate.
Qed.

(** C5, amended.  On a scalar node and on a sequence node the trigger
    field and the dependency field normalise alike: a scalar gives the
    one-element sequence of its decoded value, a sequence gives its
    decoded sequence, in order, and a decoding error is fatal.  On a
    mapping node [On] gives the keys of the decoded mapping, each
    once, in no specified order, whereas [Needs] gives the empty
    sequence.  On any other kind of node both give the empty
    sequence. *)
Theorem On_Needs_normalisation `{Decoder} (n : Node) (w : Workflow.t) (j : Job.t) :
  Workflow.RawOn w = n →
  Job.RawNeeds j = n →
  (Node_Kind n = ScalarNode →
     On w = Needs j ∧
     (∀ val, decodeString n = Some val → On w = Ok [val]) ∧
     (decodeString n = None → On w = Fatal)) ∧
  (Node_Kind n = SequenceNode →
     On w = Needs j ∧
     (∀ val, decodeStrings n = Some val → On w = Ok val) ∧
     (decodeStrings n = None → On w = Fatal)) ∧
  (Node_Kind n = MappingNode →
     Needs j = Ok [] ∧
     (∀ val, decodeMap n = Some val →
        ∃ keys, On w = Ok keys ∧ NoDup keys ∧
                ∀ k, k ∈ keys ↔ is_Some (val !! k)) ∧
     (decodeMap n = None → On w = Fatal)) ∧
  (Node_Kind n ≠ ScalarNode → Node_Kind n ≠ SequenceNode →
   Node_Kind n ≠ MappingNode →
     On w = Ok [] ∧ Needs j = Ok []).
Proof.
  intros Hw Hj. unfold On, Needs. rewrite Hw, Hj. split_and!.
  - intros ->. split_and!; [done|by intros val ->|by intros ->].
  - intros ->. split_and!; [done|by intros val ->|by intros ->].
  - intros ->. split_and!; [done| |by intros ->].
    intros val ->. exists (rangeKeys val). split_and!; [done| |].
    + apply NoDup_fst_map_to_list.
    + intros k. unfold rangeKeys. rewrite list_elem_of_fmap. split.
      * intros ([k' v] & -> & Hin%elem_of_map_to_list). by eexists.
      * intros [v Hv]. exists (k, v). by rewrite elem_of_map_to_list.
  - intros Hs Hq Hm. by destruct (Node_Kind n).
Qed.

Lemma On_Needs_normalisation_witness :
  On (H := plainDecoder)
     (workflowOn (sequenceNode [scalarNode "push"; scalarNode "pull_request"]))
  = Ok ["push"; "pull_request"] ∧
  Needs (H := plainDecoder)
     (jobNeeds (sequenceNode [scalarNode "push"; scalarNode "pull_request"]))
  = Ok ["push"; "pull_request"].
Proof.
  destruct (On_Needs_normalisation (H := plainDecoder)
              (sequenceNode [scalarNode "push"; scalarNode "pull_request"])
              (workflowOn _) (jobNeeds _) eq_refl eq_refl)
    as (_ & Hseq & _).
  destruct (Hseq eq_refl) as (Hsame & Hval & _).
  rewrite <- Hsame. split; apply Hval; reflexivity.
Defined.

(** * Steps *)

(** C6, as stated, fails: the character class of the replacement
    keeps the hyphen, so the input "node-version" does not produce the
    key INPUT_NODE_VERSION. *)
Lemma GetEnv_node_version_counterexample :
  Step.With setupStep = {[ "node-version" := "16" ]} ∧
  GetEnv setupStep !! "INPUT_NODE_VERSION" = None.
Proof. split; reflexivity. Qed.

(** C6, amended.  For a step with input parameters
    with = {"node-version": "16"}, [GetEnv] returns the declared
    environment extended with the entry INPUT_NODE-VERSION = "16":
    the hyphen is kept, and the key INPUT_NODE_VERSION is there only
    if the declared environment has it. *)
Theorem GetEnv_node_version (s : Step.t) :
  Step.With s = {[ "node-version" := "16" ]} →
  GetEnv s = <[ "INPUT_NODE-VERSION" := "16" ]> (Step.Env s) ∧
  GetEnv s !! "INPUT_NODE-VERSION" = Some "16" ∧
  GetEnv s !! "INPUT_NODE_VERSION" = Step.Env s !! "INPUT_NODE_VERSION".
Proof.
  intros Hw. rewrite (GetEnv_single_input s _ _ Hw).
  change (envKey "node-version") with "INPUT_NODE-VERSION".
  split_and!; [done|apply lookup_insert_eq|by apply lookup_insert_ne].
Qed.

Lemma GetEnv_node_version_witness :
  GetEnv setupStep !! "INPUT_NODE-VERSION" = Some "16".
Proof. exact (proj1 (proj2 (GetEnv_node_version setupStep eq_refl))). Defined.

(** C7.  [Type] classifies a step in this order: a non-empty run body
    makes it [StepTypeRun], whatever uses holds; otherwise uses
    starting with "docker://" makes it [StepTypeUsesDockerURL];
    otherwise uses starting with "./" makes it
    [StepTypeUsesActionLocal]; otherwise, the empty uses included, it
    is [StepTypeUsesActionRemote]. *)
Theorem Step_Type_precedence (s : Step.t) :
  let docker := ∃ rest, Step.Uses s = String.append "docker://" rest in
  let local := ∃ rest, Step.Uses s = String.append "./" rest in
  (Step.Run s ≠ "" → Step_Type s = StepTypeRun) ∧
  (Step.Run s = "" → docker → Step_Type s = StepTypeUsesDockerURL) ∧
  (Step.Run s = "" → ¬ docker → local →
     Step_Type s = StepTypeUsesActionLocal) ∧
  (Step.Run s = "" → ¬ docker → ¬ local →
     Step_Type s = StepTypeUsesActionRemote) ∧
  (Step.Run s = "" → Step.Uses s = "" →
     Step_Type s = StepTypeUsesActionRemote).
Proof.
  intros docker local. unfold Step_Type.
  pose proof (HasPrefix_spec (Step.Uses s) "docker://") as Hd.
  pose proof (HasPrefix_spec (Step.Uses s) "./") as Hl.
  fold docker in Hd. fold local in Hl.
  destruct (String.eqb_spec (Step.Run s) "") as [Hr|Hr]; simpl.
  - split_and!; try done.
    + intros _ Hyes. apply Hd in Hyes. by rewrite Hyes.
    + intros _ Hno Hyes. apply Hl in Hyes. rewrite Hyes.
      destruct (HasPrefix (Step.Uses s) "docker://"); [|done].
      exfalso. by apply Hno, Hd.
    + intros _ Hno Hno'.
      destruct (HasPrefix (Step.Uses s) "docker://"); [exfalso; by apply Hno, Hd|].
      destruct (HasPrefix (Step.Uses s) "./"); [exfalso; by apply Hno', Hl|].
      done.
    + intros _ ->. done.
  - split_and!; done.
Qed.

Lemma Step_Type_precedence_witness :
  Step_Type (Step.mk "" "" "" "docker://alpine" "echo hi" "" "" ∅ ∅ false 0)
  = StepTypeRun ∧
  Step_Type (Step.mk "" "" "" "docker://alpine" "" "" "" ∅ ∅ false 0)
  = StepTypeUsesDockerURL.
Proof.
  split.
  - apply (Step_Type_precedence
             (Step.mk "" "" "" "docker://alpine" "echo hi" "" "" ∅ ∅ false 0)).
    discriminate.
  - apply (Step_Type_precedence
             (Step.mk "" "" "" "docker://alpine" "" "" "" ∅ ∅ false 0)).
    + reflexivity.
    + exists "alpine". reflexivity.
Defined.

(** * Job lookup *)

(** C8.  [GetJob] on an identifier of the job map whose job has an
    empty name returns that job, its name now the identifier; a
    second lookup returns the same job and changes nothing; and
    [GetJob] on an identifier that is not in the job map returns nil
    and changes nothing: it does not panic. *)
Theorem GetJob_lazy_name (w : Workflow.t) (jobID : string) (h : store) :
  (∀ l job,
     Workflow.Jobs w !! jobID = Some (Some l) →
     h !! l = Some job →
     Job.Name job = "" →
     let h' := <[l := Job.setName jobID job]> h in
     GetJob w jobID h = Ok (Some l, h') ∧
     Job.Name <$> h' !! l = Some jobID ∧
     GetJob w jobID h' = Ok (Some l, h')) ∧
  (∀ p h', GetJob w jobID h = Ok (p, h') → GetJob w jobID h' = Ok (p, h')) ∧
  (Workflow.Jobs w !! jobID = None → GetJob w jobID h = Ok (None, h)).
Proof.
  split_and!.
  - intros l job Hj Hl Hn h'.
    assert (Hfirst : GetJob w jobID h = Ok (Some l, h')).
    { rewrite GetJob_lookup, Hj. simpl. by rewrite Hl, Hn. }
    split_and!; [done| |].
    + unfold h'. by rewrite lookup_insert_eq.
    + revert Hfirst. rewrite !GetJob_lookup, Hj. apply GetJob_hit_idemp.
  - intros p h'. rewrite !GetJob_lookup.
    destruct (Workflow.Jobs w !! jobID) as [j|]; [apply GetJob_hit_idemp|].
    by intros [= <- <-].
  - intros Hj. by rewrite GetJob_lookup, Hj.
Qed.

Lemma GetJob_lazy_name_witness :
  ∃ h', GetJob buildWorkflow "build" buildStore = Ok (Some 1%positive, h') ∧
        Job.Name <$> h' !! 1%positive = Some "build" ∧
        GetJob buildWorkflow "build" h' = Ok (Some 1%positive, h') ∧
        GetJob buildWorkflow "test" buildStore = Ok (None, buildStore).
Proof.
  destruct (GetJob_lazy_name buildWorkflow "build" buildStore) as (Hhit & _ & _).
  destruct (Hhit 1%positive buildJob eq_refl eq_refl eq_refl) as (H1 & H2 & H3).
  destruct (GetJob_lazy_name buildWorkflow "test" buildStore) as (_ & _ & Hmiss).
  eexists. split_and!; [exact H1|exact H2|exact H3|].
  apply Hmiss. reflexivity.
Defined.

(** * Further properties of the matrix expander *)

Lemma iface_ne_refl x :
  iface_ne x x = if comparable x then Ok false else Panic.
Proof.
  destruct x; simpl; try done.
  - by rewrite Bool.eqb_reflx.
  - by rewrite Z.eqb_refl.
  - by rewrite String.eqb_refl.
Qed.

Lemma iface_ne_false_sym x y : iface_ne x y = Ok false → iface_ne y x = Ok false.
Proof.
  intros H. pose proof H as [_ Heq]%iface_ne_Ok.
  assert (x = y) as -> by by apply Heq. done.
Qed.

(** The comparisons behind a "match": every shared key was compared
    and found equal. *)
Lemma commonKeysMatch_range_true entries (b : variant) :
  commonKeysMatch_range entries b = Ok true
  ↔ ∀ k x y, (k, x) ∈ entries → b !! k = Some y → iface_ne x y = Ok false.
Proof.
  induction entries as [|[k x] rest IH]; simpl.
  - split; [|done]. intros _ k x y Hin. by apply elem_of_nil in Hin.
  - destruct (b !! k) as [y|] eqn:Hk.
    + destruct (iface_ne x y) as [[]| |] eqn:Hne; simpl.
      * split; [done|]. intros Hall.
        rewrite (Hall k x y) in Hne; [done|left|done].
      * rewrite IH. split.
        -- intros Hrest k' x' y' [[= -> ->]|Hin]%elem_of_cons Hy'; [|by eauto].
           congruence.
        -- intros Hall k' x' y' Hin. apply Hall. by right.
      * split; [done|]. intros Hall.
        rewrite (Hall k x y) in Hne; [done|left|done].
      * split; [done|]. intros Hall.
        rewrite (Hall k x y) in Hne; [done|left|done].
    + rewrite IH. split.
      * intros Hrest k' x' y' [[= -> ->]|Hin]%elem_of_cons Hy'; [congruence|by eauto].
      * intros Hall k' x' y' Hin. apply Hall. by right.
Qed.

Lemma commonKeysMatch_true (a b : variant) :
  commonKeysMatch a b = Ok true
  ↔ ∀ k x y, a !! k = Some x → b !! k = Some y → iface_ne x y = Ok false.
Proof.
  unfold commonKeysMatch. rewrite commonKeysMatch_range_true. split.
  - intros H k x y Ha. apply H. by apply elem_of_map_to_list.
  - intros H k x y Hin. apply H. by apply elem_of_map_to_list.
Qed.

(** Maps that agree and share a slice or a map: the comparison runs
    into it. *)
Lemma commonKeysMatch_range_Panic entries (b : variant) :
  (∀ k x y, (k, x) ∈ entries → b !! k = Some y → x = y) →
  (∃ k x, (k, x) ∈ entries ∧ b !! k = Some x ∧ comparable x = false) →
  commonKeysMatch_range entries b = Panic.
Proof.
  induction entries as [|[k x] rest IH]; intros Hag (k0 & x0 & Hin & Hb & Hc).
  - by apply elem_of_nil in Hin.
  - simpl. assert (Hrest : ∀ k x y, (k, x) ∈ rest → b !! k = Some y → x = y).
    { intros k' x' y' Hin'. apply Hag. by right. }
    destruct (b !! k) as [y|] eqn:Hk.
    + assert (x = y) as <- by (apply (Hag k); [left|done]).
      rewrite iface_ne_refl. destruct (comparable x) eqn:Hcx; [|done].
      simpl. apply IH; [done|]. exists k0, x0. split_and!; try done.
      apply elem_of_cons in Hin as [[= -> ->]|Hin]; [|done]. congruence.
    + apply IH; [done|]. exists k0, x0. split_and!; try done.
      apply elem_of_cons in Hin as [[= -> ->]|Hin]; [|done]. congruence.
Qed.

Lemma agreeb_empty (c : variant) : agreeb c ∅ = true.
Proof.
  unfold agreeb. apply forallb_forall. intros [k x] _. simpl.
  by rewrite lookup_empty.
Qed.

Lemma survivors_empty_exclude excludes (cands : list variant) :
  ∅ ∈ excludes → survivors excludes cands = [].
Proof.
  intros He. unfold survivors. induction cands as [|c cs IH]; [done|].
  simpl. rewrite IH.
  assert (existsb (agreeb c) excludes = true) as ->; [|done].
  apply existsb_exists. exists ∅. split; [by apply list_elem_of_In|].
  apply agreeb_empty.
Qed.

Lemma mapM_assertMap_Panic (l : list value) v :
  v ∈ l → (∀ m, v ≠ VMap m) → mapM assertMap l = Panic.
Proof.
  intros Hin Hv. induction l as [|x l IH]; [by apply elem_of_nil in Hin|].
  change (mapM assertMap (x :: l))
    with (y ← assertMap x; k ← mapM assertMap l; mret (y :: k)).
  apply elem_of_cons in Hin as [<-|Hin].
  - destruct v; simpl; try done. by destruct (Hv m).
  - rewrite (IH Hin). by destruct x.
Qed.

(** X1.  Partial-key match is symmetric in its "match" answer:
    [commonKeysMatch a b] returns true exactly when
    [commonKeysMatch b a] does. *)
Theorem commonKeysMatch_sym (a b : variant) :
  commonKeysMatch a b = Ok true ↔ commonKeysMatch b a = Ok true.
Proof.
  rewrite !commonKeysMatch_true.
  split; intros H k x y Hx Hy; by apply iface_ne_false_sym, (H k).
Qed.

(** X2.  Two maps without a common key match, and the comparison
    cannot panic: no value is compared.  So the empty map matches
    every map, on either side. *)
Theorem commonKeysMatch_disjoint (a b : variant) :
  (∀ k, a !! k = None ∨ b !! k = None) →
  commonKeysMatch a b = Ok true.
Proof.
  intros Hdisj. apply commonKeysMatch_true. intros k x y Ha Hb.
  destruct (Hdisj k); congruence.
Qed.

Lemma commonKeysMatch_disjoint_witness :
  commonKeysMatch {[ "a" := VSeq [VInt 1] ]} ∅ = Ok true.
Proof.
  apply commonKeysMatch_disjoint. intros k. right. apply lookup_empty.
Defined.

(** X3.  Values of slice or map type are never found equal.  When
    the comparison returns true, the values under every shared key
    are scalars; and when the two maps agree on all shared keys but
    one of these holds a slice or a map, the comparison panics. *)
Theorem commonKeysMatch_uncomparable (a b : variant) k x y :
  a !! k = Some x →
  b !! k = Some y →
  (commonKeysMatch a b = Ok true →
     x = y ∧ comparable x = true) ∧
  (agree a b → comparable x = false → commonKeysMatch a b = Panic).
Proof.
  intros Ha Hb. split.
  - intros Hm. pose proof (proj1 (commonKeysMatch_true a b) Hm k x y Ha Hb) as Hne.
    pose proof Hne as [_ Heq]%iface_ne_Ok.
    assert (x = y) as <- by by apply Heq. split; [done|].
    rewrite iface_ne_refl in Hne. by destruct (comparable x).
  - intros Hag Hc. apply commonKeysMatch_range_Panic.
    + intros k' x' y' Hin. apply Hag. by apply elem_of_map_to_list.
    + exists k, x. split_and!; [by apply elem_of_map_to_list| |done].
      by rewrite (Hag k x y Ha Hb).
Qed.

Lemma commonKeysMatch_uncomparable_witness :
  commonKeysMatch {[ "a" := VSeq [VInt 1] ]} {[ "a" := VSeq [VInt 1] ]} = Panic.
Proof.
  apply (commonKeysMatch_uncomparable _ _ "a" (VSeq [VInt 1]) (VSeq [VInt 1]));
    [reflexivity|reflexivity| |reflexivity].
  intros k x y Hx Hy. rewrite Hx in Hy. by injection Hy.
Defined.

(** X4.  Include entries neither add nor remove variants: a call of
    [GetMatrixes] that returns puts out at most as many variants as
    the Cartesian product has candidates, and exactly as many when
    the matrix has no exclude entries. *)
Theorem GetMatrixes_length (j j' : Job.t) (s : Strategy.t) out :
  Job.Strategy j = Some s →
  GetMatrixes j = Ok (out, j') →
  (length out ≤ length (CartesianProduct (axes (Strategy.Matrix s))))%nat ∧
  (axis "exclude" (Strategy.Matrix s) = [] →
   length out = length (CartesianProduct (axes (Strategy.Matrix s)))).
Proof.
  intros Hs Hcall.
  destruct (GetMatrixes_Ok j j' s out Hs Hcall)
    as (includes & excludes & _ & Hexc & Hloop & _).
  apply matrixLoop_Ok in Hloop as (-> & _ & _). simpl.
  rewrite length_fmap. split.
  - apply sublist_length, survivors_sublist.
  - intros Hnil. rewrite Hnil in Hexc. destruct excludes; [|done].
    by rewrite survivors_nil.
Qed.

Lemma GetMatrixes_length_witness :
  ∃ out j',
    GetMatrixes (matrixJob includeMatrix) = Ok (out, j') ∧
    length out = length (CartesianProduct (axes includeMatrix)).
Proof.
  assert (∃ out j', GetMatrixes (matrixJob includeMatrix) = Ok (out, j'))
    as (out & j' & Hcall) by (eexists _, _; vm_compute; reflexivity).
  exists out, j'. split; [exact Hcall|].
  apply (GetMatrixes_length (matrixJob includeMatrix) j' _ out eq_refl Hcall).
  reflexivity.
Defined.

(** X5.  An empty exclude entry empties the output: whatever the axes
    and the other entries are, a call that returns has no variant
    left. *)
Theorem GetMatrixes_empty_exclude (j j' : Job.t) (s : Strategy.t) out :
  Job.Strategy j = Some s →
  VMap ∅ ∈ axis "exclude" (Strategy.Matrix s) →
  GetMatrixes j = Ok (out, j') →
  out = [].
Proof.
  intros Hs Hin Hcall.
  destruct (GetMatrixes_Ok j j' s out Hs Hcall)
    as (includes & excludes & _ & Hexc & Hloop & _).
  apply matrixLoop_Ok in Hloop as (-> & _ & _). simpl.
  rewrite Hexc in Hin. apply list_elem_of_fmap in Hin as (e & [= <-] & He).
  by rewrite survivors_empty_exclude.
Qed.

Lemma GetMatrixes_empty_exclude_witness :
  ∃ j', GetMatrixes (matrixJob excludeAllMatrix) = Ok ([], j').
Proof.
  assert (∃ out j', GetMatrixes (matrixJob excludeAllMatrix) = Ok (out, j'))
    as (out & j' & Hcall) by (eexists _, _; vm_compute; reflexivity).
  exists j'. rewrite Hcall.
  rewrite (GetMatrixes_empty_exclude (matrixJob excludeAllMatrix) j' _ out
             eq_refl) ; [reflexivity| |exact Hcall].
  apply list_elem_of_In. left. reflexivity.
Defined.

(** X6.  An include entry that is not a mapping makes [GetMatrixes]
    panic (the type assertion fails); so does an exclude entry that is
    not a mapping, when the include entries all are. *)
Theorem GetMatrixes_entry_not_a_mapping (j : Job.t) (s : Strategy.t) v :
  Job.Strategy j = Some s →
  (∀ m, v ≠ VMap m) →
  (v ∈ axis "include" (Strategy.Matrix s) → GetMatrixes j = Panic) ∧
  (∀ includes,
     axis "include" (Strategy.Matrix s) = VMap <$> includes →
     v ∈ axis "exclude" (Strategy.Matrix s) →
     GetMatrixes j = Panic).
Proof.
  intros Hs Hv. unfold GetMatrixes. rewrite Hs. split.
  - intros Hin. by rewrite (mapM_assertMap_Panic _ v Hin Hv).
  - intros includes Hinc Hin. rewrite Hinc, mapM_assertMap. simpl.
    rewrite axis_delete_ne by done.
    by rewrite (mapM_assertMap_Panic _ v Hin Hv).
Qed.

Lemma GetMatrixes_entry_not_a_mapping_witness :
  GetMatrixes (matrixJob {[ "a" := [VInt 1]; "include" := [VString "a"] ]})
  = Panic.
Proof.
  apply (GetMatrixes_entry_not_a_mapping
           (matrixJob {[ "a" := [VInt 1]; "include" := [VString "a"] ]}) _
           (VString "a") eq_refl);
    [discriminate|].
  apply list_elem_of_In. left. reflexivity.
Defined.

(** * Further properties of steps *)

Lemma mapChars_compose f g s :
  mapChars f (mapChars g s) = mapChars (λ c, f (g c)) s.
Proof. induction s as [|c s IH]; [done|]. simpl. by rewrite IH. Qed.

Lemma mapChars_ext f g s :
  (∀ c, f c = g c) → mapChars f s = mapChars g s.
Proof. intros Hfg. induction s as [|c s IH]; [done|]. simpl. by rewrite Hfg, IH. Qed.

Lemma mapChars_length f s : String.length (mapChars f s) = String.length s.
Proof. induction s as [|c s IH]; [done|]. simpl. by rewrite IH. Qed.

Lemma allChars_mapChars p f s :
  (∀ c, p (f c) = true) → allChars p (mapChars f s) = true.
Proof. intros Hp. induction s as [|c s IH]; [done|]. simpl. by rewrite Hp, IH. Qed.

Lemma upperChar_idemp c : upperChar (upperChar c) = upperChar c.
Proof. destruct c as [[] [] [] [] [] [] [] []]; reflexivity. Qed.

(** One character of a derived key: upper-cased, replaced when
    outside the class, upper-cased again. *)
Lemma keyChar_derived c :
  let r := if outsideClass (upperChar c) then "_"%char else upperChar c in
  upperChar r = r ∧ keyChar r = true.
Proof. destruct c as [[] [] [] [] [] [] [] []]; split; reflexivity. Qed.


(** X7.  The display name of a step is the first non-empty one of
    name, uses, run and id; it is empty only when all four are.  Uses
    comes before run here, while [Type] looks at run first: a step
    with both and no name is displayed by its uses and classified as
    a run step. *)
Theorem Step_String_first_non_empty (s : Step.t) :
  (Step.Name s ≠ "" → Step_String s = Step.Name s) ∧
  (Step.Name s = "" → Step.Uses s ≠ "" → Step_String s = Step.Uses s) ∧
  (Step.Name s = "" → Step.Uses s = "" → Step.Run s ≠ "" →
     Step_String s = Step.Run s) ∧
  (Step.Name s = "" → Step.Uses s = "" → Step.Run s = "" →
     Step_String s = Step.ID s) ∧
  (Step_String s = ""
   ↔ Step.Name s = "" ∧ Step.Uses s = "" ∧ Step.Run s = "" ∧ Step.ID s = "") ∧
  (Step.Name s = "" → Step.Uses s ≠ "" → Step.Run s ≠ "" →
     Step_String s = Step.Uses s ∧ Step_Type s = StepTypeRun).
Proof.
  unfold Step_String, Step_Type.
  destruct (String.eqb_spec (Step.Name s) "") as [Hn|Hn];
    destruct (String.eqb_spec (Step.Uses s) "") as [Hu|Hu];
    destruct (String.eqb_spec (Step.Run s) "") as [Hr|Hr];
    simpl; split_and!; try done; try tauto; try (split; [tauto|]; tauto).
Qed.

Lemma Step_String_first_non_empty_witness :
  Step_String setupStep = "actions/setup-node@v1".
Proof.
  destruct (Step_String_first_non_empty setupStep) as (_ & Huses & _).
  apply Huses; [reflexivity|discriminate].
Defined.

(** X8.  [ShellCommand] never returns the empty string: the empty
    shell name gets the bash template, and any other name is either
    one of the known shells or is used as it is. *)
Theorem ShellCommand_non_empty (s : Step.t) : ShellCommand s ≠ "".
Proof.
  unfold ShellCommand.
  destruct (String.eqb_spec (Step.Shell s) "") as [He|He]; simpl; [done|].
  repeat (match goal with
          | |- context [String.eqb ?a ?b] => destruct (String.eqb a b)
          end; simpl; [by vm_compute|]).
  done.
Qed.

(** X9.  Resolving a shell twice is resolving it once: a step whose
    shell is the command that [ShellCommand] returned gets that same
    command, since no template is the name of a known shell. *)
Theorem ShellCommand_idemp (s : Step.t) :
  ShellCommand (setShell (ShellCommand s) s) = ShellCommand s.
Proof.
  unfold ShellCommand at 2 3. simpl.
  destruct (String.eqb (Step.Shell s) "" || String.eqb (Step.Shell s) "bash")
    eqn:E1; [reflexivity|].
  destruct (String.eqb (Step.Shell s) "pwsh") eqn:E2; [reflexivity|].
  destruct (String.eqb (Step.Shell s) "python") eqn:E3; [reflexivity|].
  destruct (String.eqb (Step.Shell s) "sh") eqn:E4; [reflexivity|].
  destruct (String.eqb (Step.Shell s) "cmd") eqn:E5; [reflexivity|].
  destruct (String.eqb (Step.Shell s) "powershell") eqn:E6; [reflexivity|].
  unfold ShellCommand. simpl. by rewrite E1, E2, E3, E4, E5, E6.
Qed.





(** X16.  On ASCII names, the key derived from an input parameter is
    "INPUT_" followed by the name upper-cased with every character
    outside [A-Z0-9-] replaced by an underscore: the second
    upper-casing changes nothing, the key is six characters longer
    than the name, and past the prefix it only holds characters of
    [A-Z0-9-] and underscores. *)
Theorem envKey_shape (k : string) :
  isASCII k = true →
  let body := ReplaceAllString_underscore (ToUpper k) in
  envKey k = "INPUT_" +:+ body ∧
  String.length (envKey k) = 6 + String.length k ∧
  allChars keyChar body = true.
Proof.
  intros _ body. unfold envKey. fold body.
  assert (Hbody : body = mapChars (λ c, if outsideClass (upperChar c)
                                        then "_"%char else upperChar c) k).
  { unfold body, ReplaceAllString_underscore, ToUpper. apply mapChars_compose. }
  assert (Hup : ToUpper body = body).
  { rewrite Hbody. unfold ToUpper. rewrite mapChars_compose.
    apply mapChars_ext. intros c. apply keyChar_derived. }
  rewrite Hup. split_and!.
  - done.
  - change (String.length ("INPUT_" +:+ body)) with (6 + String.length body).
    by rewrite Hbody, mapChars_length.
  - rewrite Hbody. apply allChars_mapChars. intros c. apply keyChar_derived.
Qed.

Lemma envKey_shape_witness :
  envKey "node-version" = "INPUT_NODE-VERSION" ∧
  String.length (envKey "node-version") = 18.
Proof.
  destruct (envKey_shape "node-version" eq_refl) as (Hk & Hlen & _).
  split; [exact Hk|exact Hlen].
Defined.

(** X17.  On ASCII names, the derived key does not depend on the case
    of the name: a name and its upper-cased form derive the same
    key. *)
Theorem envKey_case_insensitive (k : string) :
  isASCII k = true → envKey (ToUpper k) = envKey k.
Proof.
  intros _. unfold envKey. do 2 f_equal. f_equal.
  unfold ToUpper. rewrite mapChars_compose.
  apply mapChars_ext, upperChar_idemp.
Qed.

Lemma envKey_case_insensitive_witness :
  envKey "NODE-VERSION" = envKey "node-version".
Proof. exact (envKey_case_insensitive "node-version" eq_refl). Defined.

(** * Further properties of job lookup *)

Lemma elem_of_GetJobIDs (w : Workflow.t) id :
  id ∈ GetJobIDs w ↔ is_Some (Workflow.Jobs w !! id).
Proof.
  unfold GetJobIDs. rewrite list_elem_of_fmap. split.
  - intros ([k j] & -> & Hin%elem_of_map_to_list). by eexists.
  - intros [j Hj]. exists (id, j). by rewrite elem_of_map_to_list.
Qed.

(** What a lookup that found its entry and returned has done. *)
Lemma GetJob_hit_Ok id j (h h' : store) p :
  GetJob_hit id j h = Ok (p, h') →
  ∃ l job, j = Some l ∧ p = Some l ∧ h !! l = Some job ∧
    h' = (if String.eqb (Job.Name job) "" then <[l := Job.setName id job]> h
          else h).
Proof.
  unfold GetJob_hit. destruct j as [l|]; [|done].
  destruct (h !! l) as [job|] eqn:Hl; [|done].
  intros Hhit. exists l, job. split_and!; try done.
  - destruct (String.eqb (Job.Name job) ""); by injection Hhit.
  - destruct (String.eqb (Job.Name job) ""); by injection Hhit.
Qed.



(** X10.  [GetJobIDs] lists the identifiers of the job map, each
    exactly once: as many as the map has jobs. *)
Theorem GetJobIDs_keys (w : Workflow.t) :
  NoDup (GetJobIDs w) ∧
  (∀ id, id ∈ GetJobIDs w ↔ is_Some (Workflow.Jobs w !! id)) ∧
  length (GetJobIDs w) = size (Workflow.Jobs w).
Proof.
  split_and!.
  - apply NoDup_fst_map_to_list.
  - apply elem_of_GetJobIDs.
  - unfold GetJobIDs. by rewrite length_fmap, length_map_to_list.
Qed.

(** X11.  [GetJob] returns nil exactly for the identifiers that
    [GetJobIDs] does not list, and then leaves the store alone; for a
    listed identifier a lookup that returns gives the pointer the job
    map holds for it. *)
Theorem GetJob_nil_iff_unlisted (w : Workflow.t) (jobID : string) (h h' : store) :
  (GetJob w jobID h = Ok (None, h') ↔ (jobID ∉ GetJobIDs w) ∧ h' = h) ∧
  (∀ p, jobID ∈ GetJobIDs w → GetJob w jobID h = Ok (p, h') →
        is_Some p ∧ Workflow.Jobs w !! jobID = Some p).
Proof.
  rewrite GetJob_lookup.
  pose proof (elem_of_GetJobIDs w jobID) as Hin.
  destruct (Workflow.Jobs w !! jobID) as [j|] eqn:Hj; split.
  - split.
    + intros (l & job & _ & [=] & _)%GetJob_hit_Ok.
    + intros [Hno _]. destruct Hno. apply Hin. by eexists.
  - intros p _ (l & job & -> & -> & _)%GetJob_hit_Ok. split; [by eexists|done].
  - split.
    + intros [= <-]. split; [|done]. by intros [? ?]%Hin.
    + by intros [_ ->].
  - by intros p [? ?]%Hin.
Qed.

(** X12.  A lookup changes at most the name of the job it found: every
    other job in the store is left as it is, the found job keeps all
    its other fields, and a found job that has a name is not changed
    at all. *)
Theorem GetJob_frame (w : Workflow.t) (jobID : string) (h h' : store) l :
  GetJob w jobID h = Ok (Some l, h') →
  ∃ job, h !! l = Some job ∧
    (∀ l', l' ≠ l → h' !! l' = h !! l') ∧
    h' !! l = Some (if String.eqb (Job.Name job) ""
                    then Job.setName jobID job else job) ∧
    (Job.Name job ≠ "" → h' = h).
Proof.
  rewrite GetJob_lookup. destruct (Workflow.Jobs w !! jobID) as [j|]; [|done].
  intros (l0 & job & -> & [= <-] & Hl & ->)%GetJob_hit_Ok.
  exists job. split; [done|].
  destruct (String.eqb_spec (Job.Name job) "") as [Hn|Hn]; split_and!; try done.
  - intros l' Hne. by rewrite lookup_insert_ne.
  - by rewrite lookup_insert_eq.
Qed.

Lemma GetJob_frame_witness :
  ∃ h', GetJob buildWorkflow "build" buildStore = Ok (Some 1%positive, h') ∧
        h' !! 1%positive = Some (Job.setName "build" buildJob).
Proof.
  assert (∃ h', GetJob buildWorkflow "build" buildStore
                = Ok (Some 1%positive, h'))
    as [h' Hcall] by (eexists; vm_compute; reflexivity).
  exists h'. split; [exact Hcall|].
  destruct (GetJob_frame buildWorkflow "build" buildStore h' 1%positive Hcall)
    as (job & Hjob & _ & Hl & _).
  rewrite Hl. injection Hjob as <-. reflexivity.
Defined.

(** X13.  An identifier that the job map binds to a nil pointer makes
    [GetJob] panic: the loop reads the name through the pointer. *)
Theorem GetJob_nil_entry (w : Workflow.t) (jobID : string) (h : store) :
  Workflow.Jobs w !! jobID = Some None → GetJob w jobID h = Panic.
Proof. intros Hj. by rewrite GetJob_lookup, Hj. Qed.

Lemma GetJob_nil_entry_witness :
  GetJob (Workflow.mk "ci" emptyNode ∅ {[ "build" := None ]}) "build" ∅ = Panic.
Proof.
  apply (GetJob_nil_entry (Workflow.mk "ci" emptyNode ∅ {[ "build" := None ]})).
  reflexivity.
Defined.



(** * Where the values of a variant come from *)

Lemma withIncludes_values includes (c : variant) k x :
  withIncludes includes c !! k = Some x →
  c !! k = Some x ∨ ∃ inc, inc ∈ includes ∧ inc !! k = Some x.
Proof.
  revert c. induction includes as [|inc rest IH]; intros c; simpl; [by left|].
  intros [Hacc|(inc' & Hin & Hk)]%IH.
  - destruct (agreeb c inc); [|by left].
    apply lookup_union_Some_raw in Hacc as [Hi|[_ Hc]]; [|by left].
    right. exists inc. split; [left|done].
  - right. exists inc'. split; [by right|done].
Qed.

(** X19.  [GetMatrixes] invents nothing: every variant of the output
    of a call that returns extends one candidate of the Cartesian
    product, and each of its values is the candidate's value for that
    key or the value an include entry of the matrix has for it. *)
Theorem GetMatrixes_values (j j' : Job.t) (s : Strategy.t) out v :
  Job.Strategy j = Some s →
  GetMatrixes j = Ok (out, j') →
  v ∈ out →
  ∃ c, c ∈ CartesianProduct (axes (Strategy.Matrix s)) ∧ c ⊆ v ∧
    ∀ k x, v !! k = Some x →
      c !! k = Some x ∨
      ∃ inc, VMap inc ∈ axis "include" (Strategy.Matrix s) ∧ inc !! k = Some x.
Proof.
  intros Hs Hcall Hv.
  destruct (GetMatrixes_Ok j j' s out Hs Hcall)
    as (includes & excludes & Hinc & _ & Hloop & _).
  apply matrixLoop_Ok in Hloop as (-> & _ & _). simpl in Hv.
  apply list_elem_of_fmap in Hv as (c & -> & Hc).
  exists c. split_and!.
  - eapply elem_of_sublist; [done|apply survivors_sublist].
  - apply withIncludes_extends.
  - intros k x [Hk|(inc & Hin & Hk)]%withIncludes_values; [by left|].
    right. exists inc. split; [|done]. rewrite Hinc.
    apply list_elem_of_fmap. by exists inc.
Qed.

Lemma GetMatrixes_values_witness :
  ∃ c, c ∈ CartesianProduct (axes includeMatrix) ∧
       c ⊆ ({[ "a" := VInt 1; "b" := VInt 9 ]} : variant).
Proof.
  assert (∃ j', GetMatrixes (matrixJob includeMatrix)
                = Ok ([ {[ "a" := VInt 1; "b" := VInt 9 ]};
                        {[ "a" := VInt 2 ]} ], j'))
    as [j' Hcall] by (eexists; vm_compute; reflexivity).
  destruct (GetMatrixes_values (matrixJob includeMatrix) j' _ _
              {[ "a" := VInt 1; "b" := VInt 9 ]} eq_refl Hcall)
    as (c & Hc & Hsub & _).
  - apply list_elem_of_In. left. reflexivity.
  - exists c. split; [exact Hc|exact Hsub].
Defined.

Lemma GetJob_nil_iff_unlisted_witness :
  GetJob buildWorkflow "test" buildStore = Ok (None, buildStore).
Proof.
  destruct (GetJob_nil_iff_unlisted buildWorkflow "test" buildStore buildStore)
    as [[_ Hnil] _].
  apply Hnil. split; [|reflexivity].
  intros [j Hj]%elem_of_GetJobIDs. vm_compute in Hj. discriminate Hj.
Defined.
